(** * air-monitor: the PurpleAir proxy route and the AQI conversion

    A shallow embedding of

    - [src/app/api/purple-air/[sensorId]/route.ts]: the in-memory rate
      limiter, the time-bounded cache, the clean-up sweep and the [GET]
      handler.  The file holds two revisions of the route; what they share
      ([checkRateLimit], [getCachedData], the constants) is embedded once,
      what differs lives in [Module Route] (the revision with the
      [setInterval] sweep) and [Module RouteTyped] (the revision whose
      [setCachedData] sweeps before it stores).
    - [src/components/PurpleAirDisplay.tsx]: [calculateAQI] and
      [getAQICategory], on IEEE 754 binary64 numbers.

    JavaScript numbers that only ever hold millisecond clock readings and
    request counts are integers far below 2^53 and are embedded as [Z];
    the concentration and the index are embedded as binary64 [float]s. *)

From Stdlib Require Import ZArith Floats Lia List QArith Qpower Lqa.
From Stdlib Require Uint63.
From stdpp Require Import gmap strings.

Local Open Scope Z_scope.

(** ** JSON payloads *)

(** What [response.json()] can produce.  The route stores and forwards the
    payload untouched; the only thing it ever observes of it is its
    truthiness ([if (cachedData)]). *)
#[local] Set Warnings "-register-all".
Inductive json : Type :=
| JNull
| JBool (b : bool)
| JNumber (x : float)
| JString (s : string)
| JArray (items : list json)
| JObject (fields : list (string * json)).

(** JavaScript's ToBoolean on a JSON value. *)
Definition truthy (v : json) : bool :=
  match v with
  | JNull => false
  | JBool b => b
  | JNumber x => negb (PrimFloat.is_zero x || PrimFloat.is_nan x)
  | JString s => negb (String.eqb s "")
  | JArray _ => true
  | JObject _ => true
  end.

(** ** The two tables *)

Module RateLimitEntry.
Record t : Type := mk { count : Z; timestamp : Z }.
End RateLimitEntry.

Module CacheEntry.
Record t : Type := mk { data : json; timestamp : Z }.
End CacheEntry.

(** The module-level [Map]s.  No operation of the route depends on the
    insertion order a JavaScript [Map] keeps, so a finite map is enough. *)
Record Server : Type := mkServer {
  rateLimit : gmap string RateLimitEntry.t;
  cache : gmap string CacheEntry.t
}.

Definition RATE_LIMIT_WINDOW : Z := 300000.
Definition MAX_REQUESTS : Z := 10.
Definition CACHE_DURATION : Z := 1800000.

(** ** Rate limiter *)

(** [checkRateLimit(ip)]; [now] is the value [Date.now()] returns inside
    the call. *)
Definition checkRateLimit (ip : string) (now : Z)
    (rateLimit : gmap string RateLimitEntry.t)
  : bool * gmap string RateLimitEntry.t :=
  match rateLimit !! ip with
  | None =>
      (true, <[ip := RateLimitEntry.mk 1 now]> rateLimit)
  | Some userRateLimit =>
      if now - RateLimitEntry.timestamp userRateLimit >? RATE_LIMIT_WINDOW then
        (true, <[ip := RateLimitEntry.mk 1 now]> rateLimit)
      else if RateLimitEntry.count userRateLimit <? MAX_REQUESTS then
        (true,
         <[ip := RateLimitEntry.mk (RateLimitEntry.count userRateLimit + 1)
                                   (RateLimitEntry.timestamp userRateLimit)]>
           rateLimit)
      else
        (false, rateLimit)
  end.

(** ** Cache *)

(** [getCachedData(sensorId)]: the payload, or [null] ([JNull]) when there
    is no entry or the entry is too old (and then it is deleted). *)
Definition getCachedData (sensorId : string) (now : Z)
    (cache : gmap string CacheEntry.t)
  : json * gmap string CacheEntry.t :=
  match cache !! sensorId with
  | None => (JNull, cache)
  | Some cachedItem =>
      if now - CacheEntry.timestamp cachedItem <? CACHE_DURATION then
        (CacheEntry.data cachedItem, cache)
      else
        (JNull, delete sensorId cache)
  end.

(** The two clean-up loops, [for (const [k, e] of table.entries()) if (now
    - e.timestamp > W) table.delete(k)].  Deleting the entry under the
    iterator is safe in JavaScript, every entry present at the start is
    visited once: a fold over the entries that deletes from the table. *)
Definition sweepRateLimit (now : Z) (rateLimit : gmap string RateLimitEntry.t)
  : gmap string RateLimitEntry.t :=
  map_fold
    (fun ip data table =>
       if now - RateLimitEntry.timestamp data >? RATE_LIMIT_WINDOW
       then delete ip table else table)
    rateLimit rateLimit.

Definition sweepCache (now : Z) (cache : gmap string CacheEntry.t)
  : gmap string CacheEntry.t :=
  map_fold
    (fun sensorId data table =>
       if now - CacheEntry.timestamp data >? CACHE_DURATION
       then delete sensorId table else table)
    cache cache.

(** ** Requests, responses and the upstream call *)

(** [NextResponse.json(body, { status })]; the status defaults to 200. *)
Record Response : Type := mkResponse { status : Z; body : json }.

Definition NextResponse_json (body : json) (status : option Z) : Response :=
  mkResponse (default 200 status) body.

Definition rate_limit_response : Response :=
  NextResponse_json
    (JObject [("error", JString "Rate limit exceeded. Please try again later.")])
    (Some 429).

Definition fetch_failure_response : Response :=
  NextResponse_json
    (JObject [("error", JString "Failed to fetch sensor data")])
    (Some 500).

(** The request headers, read with [get(name)]: [None] is [null]. *)
Definition Headers : Type := string -> option string.

(** [a || b] on a [string | null] left operand: [null] and the empty string
    are falsy. *)
Definition or_else (a : option string) (b : string) : string :=
  match a with
  | Some s => if String.eqb s "" then b else s
  | None => b
  end.

(** What the handler hands to [fetch]. *)
Record FetchRequest : Type := mkFetch { url : string; x_api_key : string }.

(** What comes back from the two awaits [fetch(...)] and
    [response.json()]: [fetch] rejects (a transport-level error), or it
    resolves to a response with its [ok] flag whose body either parses to a
    JSON value or makes [response.json()] reject. *)
Inductive FetchOutcome : Type :=
| FetchRejected
| FetchResponse (ok : bool) (parsed : option json).

(** The payload the handler gets out of an outcome, if any: everything
    else throws inside the [try] block. *)
Definition fetched_payload (o : FetchOutcome) : option json :=
  match o with
  | FetchResponse true (Some data) => Some data
  | _ => None
  end.

(** The first synchronous stretch of [GET] either answers at once or
    suspends on the upstream call. *)
Inductive Entered : Type :=
| Answered (r : Response)
| Fetching (req : FetchRequest).

(** The request sent upstream; [apiKey] is
    [process.env.PURPLE_AIR_API_KEY]. *)
Definition upstream_request (apiKey : option string) (sensorId : string)
  : FetchRequest :=
  mkFetch ("https://api.purpleair.com/v1/sensors/" +:+ sensorId)
          (or_else apiKey "").

(** From the rate check to the point where [fetch] is awaited; this part is
    the same text in both revisions.  [t_rate] and [t_cache] are the two
    readings of [Date.now()], in [checkRateLimit] and in [getCachedData]. *)
Definition GET_enter (apiKey : option string) (ip sensorId : string)
    (t_rate t_cache : Z) (st : Server) : Entered * Server :=
  let '(allowed, rateLimit') := checkRateLimit ip t_rate (rateLimit st) in
  if negb allowed then
    (Answered rate_limit_response, mkServer rateLimit' (cache st))
  else
    let '(cachedData, cache') := getCachedData sensorId t_cache (cache st) in
    if truthy cachedData then
      (Answered (NextResponse_json cachedData None), mkServer rateLimit' cache')
    else
      (Fetching (upstream_request apiKey sensorId), mkServer rateLimit' cache').

(** One request from its first line to its response, with nothing else
    running while it awaits: the response, the upstream calls it made, and
    the tables afterwards.  [resume] is the rest of the handler after the
    awaits, which differs between the revisions only in [setCachedData]. *)
Definition run_GET (resume : string -> FetchOutcome -> Z -> Server -> Response * Server)
    (apiKey : option string) (ip sensorId : string) (t_rate t_cache t_store : Z)
    (upstream : FetchRequest -> FetchOutcome) (st : Server)
  : Response * list FetchRequest * Server :=
  match GET_enter apiKey ip sensorId t_rate t_cache st with
  | (Answered r, st') => (r, [], st')
  | (Fetching req, st') =>
      let '(r, st'') := resume sensorId (upstream req) t_store st' in
      (r, [req], st'')
  end.

(** *** The revision with the periodic sweep (lines 1-123) *)
Module Route.

(** [headersList.get('x-forwarded-for') || 'unknown'] *)
Definition client_ip (headers : Headers) : string :=
  or_else (headers "x-forwarded-for") "unknown".

Definition setCachedData (sensorId : string) (data : json) (now : Z)
    (st : Server) : Server :=
  mkServer (rateLimit st) (<[sensorId := CacheEntry.mk data now]> (cache st)).

(** The callback handed to [setInterval]. *)
Definition cleanup (now : Z) (st : Server) : Server :=
  mkServer (sweepRateLimit now (rateLimit st)) (sweepCache now (cache st)).

(** The period [setInterval] is given, in milliseconds. *)
Definition CLEANUP_INTERVAL : Z := 300000.

(** The handler after the upstream call has settled. *)
Definition GET_resume (sensorId : string) (outcome : FetchOutcome)
    (t_store : Z) (st : Server) : Response * Server :=
  match fetched_payload outcome with
  | Some data =>
      (NextResponse_json data None, setCachedData sensorId data t_store st)
  | None => (fetch_failure_response, st)
  end.

Definition GET (apiKey : option string) (headers : Headers) (sensorId : string)
    (t_rate t_cache t_store : Z) (upstream : FetchRequest -> FetchOutcome)
    (st : Server) : Response * list FetchRequest * Server :=
  run_GET GET_resume apiKey (client_ip headers) sensorId
          t_rate t_cache t_store upstream st.

(** What can happen to the tables, one uninterrupted stretch of code at
    a time: a request runs up to its response or its [await], a suspended
    request resumes, the timer fires. *)
Inductive step : Server -> Server -> Prop :=
| step_enter apiKey ip sensorId t_rate t_cache st :
    step st (GET_enter apiKey ip sensorId t_rate t_cache st).2
| step_resume sensorId outcome t_store st :
    step st (GET_resume sensorId outcome t_store st).2
| step_tick now st :
    step st (cleanup now st).

End Route.

(** *** The revision that sweeps when it stores (lines 124-270) *)
Module RouteTyped.

(** [request.headers.get('x-forwarded-for') ||
    request.headers.get('x-real-ip') || 'unknown'] *)
Definition client_ip (headers : Headers) : string :=
  or_else (headers "x-forwarded-for") (or_else (headers "x-real-ip") "unknown").

Definition setCachedData (sensorId : string) (data : json) (now : Z)
    (st : Server) : Server :=
  let rateLimit' := sweepRateLimit now (rateLimit st) in
  let cache' := sweepCache now (cache st) in
  mkServer rateLimit' (<[sensorId := CacheEntry.mk data now]> cache').

Definition GET_resume (sensorId : string) (outcome : FetchOutcome)
    (t_store : Z) (st : Server) : Response * Server :=
  match fetched_payload outcome with
  | Some data =>
      (NextResponse_json data None, setCachedData sensorId data t_store st)
  | None => (fetch_failure_response, st)
  end.

Definition GET (apiKey : option string) (headers : Headers) (sensorId : string)
    (t_rate t_cache t_store : Z) (upstream : FetchRequest -> FetchOutcome)
    (st : Server) : Response * list FetchRequest * Server :=
  run_GET GET_resume apiKey (client_ip headers) sensorId
          t_rate t_cache t_store upstream st.

Inductive step : Server -> Server -> Prop :=
| step_enter apiKey ip sensorId t_rate t_cache st :
    step st (GET_enter apiKey ip sensorId t_rate t_cache st).2
| step_resume sensorId outcome t_store st :
    step st (GET_resume sensorId outcome t_store st).2.

End RouteTyped.

(** The tables when the module is loaded. *)
Definition initial : Server := mkServer ∅ ∅.

(** States the server can be in: the reflexive-transitive closure of a
    revision's [step] from [initial]. *)
Inductive reachable (step : Server -> Server -> Prop) : Server -> Prop :=
| reachable_initial : reachable step initial
| reachable_step st st' : reachable step st -> step st st' -> reachable step st'.

(** ** Runs of the rate limiter *)

(** Calls [checkRateLimit(ip)] made one after the other by any clients,
    each with the clock reading it sees; [verdicts_for ip] collects what the
    calls of [ip] among them are answered, [times_for ip] their clock
    readings. *)
Fixpoint verdicts_for (ip : string) (calls : list (string * Z))
    (rateLimit : gmap string RateLimitEntry.t) : list bool :=
  match calls with
  | [] => []
  | (ip', now) :: calls' =>
      let '(allowed, rateLimit') := checkRateLimit ip' now rateLimit in
      if decide (ip' = ip) then allowed :: verdicts_for ip calls' rateLimit'
      else verdicts_for ip calls' rateLimit'
  end.

Fixpoint times_for (ip : string) (calls : list (string * Z)) : list Z :=
  match calls with
  | [] => []
  | (ip', now) :: calls' =>
      if decide (ip' = ip) then now :: times_for ip calls' else times_for ip calls'
  end.

(** A call at [now] opens a window for [ip]: there is no entry, or the
    entry's window has passed. *)
Definition opens_window (ip : string) (now : Z)
    (rateLimit : gmap string RateLimitEntry.t) : Prop :=
  match rateLimit !! ip with
  | None => True
  | Some e => now - RateLimitEntry.timestamp e > RATE_LIMIT_WINDOW
  end.

(** Every count in the table is between 1 and [MAX_REQUESTS]. *)
Definition count_bounded (rateLimit : gmap string RateLimitEntry.t) : Prop :=
  forall ip e, rateLimit !! ip = Some e ->
    1 <= RateLimitEntry.count e <= MAX_REQUESTS.

(** ** Requests served one after the other *)

(** One incoming request with everything the handler will observe while
    serving it: its headers and route parameter, the three clock readings
    and the upstream's answer. *)
Record Request : Type := mkRequest {
  headers : Headers;
  sensorId : string;
  t_rate : Z;
  t_cache : Z;
  t_store : Z;
  upstream : FetchRequest -> FetchOutcome
}.

Definition handle (apiKey : option string) (r : Request) (st : Server)
  : Response * list FetchRequest * Server :=
  Route.GET apiKey (headers r) (sensorId r) (t_rate r) (t_cache r) (t_store r)
            (upstream r) st.

(** The requests served in order, none overlapping another: each client
    identifier with the response it got. *)
Fixpoint serve (apiKey : option string) (reqs : list Request) (st : Server)
  : list (string * Response) :=
  match reqs with
  | [] => []
  | r :: reqs' =>
      let '(resp, _, st') := handle apiKey r st in
      (Route.client_ip (headers r), resp) :: serve apiKey reqs' st'
  end.

(** The calls to [checkRateLimit] these requests make. *)
Definition rate_calls (reqs : list Request) : list (string * Z) :=
  map (fun r => (Route.client_ip (headers r), t_rate r)) reqs.

Fixpoint responses_for (ip : string) (log : list (string * Response))
  : list Response :=
  match log with
  | [] => []
  | (ip', resp) :: log' =>
      if decide (ip' = ip) then resp :: responses_for ip log'
      else responses_for ip log'
  end.

(** ** Two statements in the specification's own words *)


(** "HTTP 500 if and only if the upstream fetch fails", with the two
    failures the sentence lists: a transport-level error ([fetch] rejects)
    or a non-success status ([response.ok] is false). *)
Definition listed_failure (o : FetchOutcome) : Prop :=
  o = FetchRejected \/ exists parsed, o = FetchResponse false parsed.

Definition status_500_iff_listed_failure : Prop :=
  forall apiKey r st,
    status (handle apiKey r st).1.1 = 500
    <-> exists req, (handle apiKey r st).1.2 = [req] /\ listed_failure (upstream r req).

(** Every way the awaited upstream call can fail to give the handler a
    payload: the two above and a success response whose body
    [response.json()] cannot read. *)
Definition fetch_failed (o : FetchOutcome) : Prop :=
  listed_failure o \/ o = FetchResponse true None.

(** ** Sample inputs *)

(** A request from 203.0.113.7 for sensor 68657 at clock reading [t], to
    which the upstream would give [outcome]. *)
Definition sample_request (t : Z) (outcome : FetchOutcome) : Request :=
  mkRequest (fun name => if String.eqb name "x-forwarded-for"
                         then Some "203.0.113.7" else None)
            "68657" t t t (fun _ => outcome).

Definition sample_payload : json :=
  JObject [("sensor",
            JObject [("stats", JObject [("pm2.5_10minute", JNumber 7.5%float)]);
                     ("temperature", JNumber 71%float);
                     ("humidity", JNumber 40%float)])].

(** Eleven such requests, one every 20 seconds from 1000 on, with a
    request of another client after the third. *)
Definition eleven_requests : list Request :=
  let mine := map (fun i => sample_request (1000 + 20000 * Z.of_nat i)
                                           (FetchResponse true (Some sample_payload)))
                  (seq 0 11) in
  take 3 mine
  ++ [mkRequest (fun _ => None) "68657" 50000 50000 50000 (fun _ => FetchRejected)]
  ++ drop 3 mine.

(** A table in which 203.0.113.7 has used up its window opened at 0. *)
Definition exhausted : Server :=
  mkServer {[ "203.0.113.7" := RateLimitEntry.mk 10 0 ]} ∅.

(** ** More on runs of the rate limiter *)

(** The table after the calls. *)
Fixpoint table_after (calls : list (string * Z))
    (rateLimit : gmap string RateLimitEntry.t) : gmap string RateLimitEntry.t :=
  match calls with
  | [] => rateLimit
  | (ip, now) :: calls' => table_after calls' (checkRateLimit ip now rateLimit).2
  end.

(** How many calls of [ip] with a clock reading in the span
    [a, a + RATE_LIMIT_WINDOW] are allowed. *)
Fixpoint allowed_in (ip : string) (a : Z) (calls : list (string * Z))
    (rateLimit : gmap string RateLimitEntry.t) : nat :=
  match calls with
  | [] => 0
  | (ip', now) :: calls' =>
      let '(allowed, rateLimit') := checkRateLimit ip' now rateLimit in
      ((if decide (ip' = ip)
        then if allowed && (a <=? now)%Z && (now <=? a + RATE_LIMIT_WINDOW)%Z
             then 1 else 0
        else 0)
       + allowed_in ip a calls' rateLimit')%nat
  end.

(** The clock does not run backwards from one call to the next. *)
Fixpoint clock_nondecreasing (calls : list (string * Z)) : Prop :=
  match calls with
  | [] => True
  | (_, now) :: calls' =>
      Forall (fun c => now <= c.2) calls' /\ clock_nondecreasing calls'
  end.

(** Ten calls at the very end of one window and ten at the start of the
    next. *)
Definition burst : list (string * Z) :=
  [("203.0.113.7", 0)]
  ++ replicate 9 ("203.0.113.7", 300000)
  ++ replicate 10 ("203.0.113.7", 300001).

(** What can still be allowed in the span once the clock has reached it:
    the rest of the current window's budget, and a whole new window only
    if the current one was opened before the span. *)
Definition span_budget (o : option RateLimitEntry.t) (a : Z) : nat :=
  match o with
  | None => 10
  | Some e =>
      (Z.to_nat (MAX_REQUESTS - RateLimitEntry.count e)
       + if (a <=? RateLimitEntry.timestamp e)%Z then 0 else 10)%nat
  end.

(** ** The sweeps seen from outside *)

(** A request served by the typed revision. *)
Definition handle_typed (apiKey : option string) (r : Request) (st : Server)
  : Response * list FetchRequest * Server :=
  RouteTyped.GET apiKey (headers r) (sensorId r) (t_rate r) (t_cache r)
                 (t_store r) (upstream r) st.

(** What the first revision's server sees, one after the other: a request
    arrives and is served, or the timer fires. *)
Inductive Event : Type :=
| Arrives (r : Request)
| Tick (now : Z).

(** The response and the upstream calls of every request, in order. *)
Fixpoint answers (apiKey : option string) (events : list Event) (st : Server)
  : list (Response * list FetchRequest) :=
  match events with
  | [] => []
  | Arrives r :: events' =>
      let '(resp, calls, st') := handle apiKey r st in
      (resp, calls) :: answers apiKey events' st'
  | Tick now :: events' => answers apiKey events' (Route.cleanup now st)
  end.

Fixpoint answers_typed (apiKey : option string) (reqs : list Request)
    (st : Server) : list (Response * list FetchRequest) :=
  match reqs with
  | [] => []
  | r :: reqs' =>
      let '(resp, calls, st') := handle_typed apiKey r st in
      (resp, calls) :: answers_typed apiKey reqs' st'
  end.

Fixpoint requests_of (events : list Event) : list Request :=
  match events with
  | [] => []
  | Arrives r :: events' => r :: requests_of events'
  | Tick _ :: events' => requests_of events'
  end.

(** The clock readings of the events do not run backwards, from [now]
    on. *)
Fixpoint in_clock_order (now : Z) (events : list Event) : Prop :=
  match events with
  | [] => True
  | Arrives r :: events' =>
      now <= t_rate r /\ t_rate r <= t_cache r /\ t_cache r <= t_store r
      /\ in_clock_order (t_store r) events'
  | Tick t :: events' => now <= t /\ in_clock_order t events'
  end.

(** An entry no call at [now] or later makes use of: none, or one
    [checkRateLimit] replaces, or one [getCachedData] deletes. *)
Definition gone_rate (now : Z) (o : option RateLimitEntry.t) : Prop :=
  match o with
  | None => True
  | Some e => now - RateLimitEntry.timestamp e > RATE_LIMIT_WINDOW
  end.

Definition gone_cache (now : Z) (o : option CacheEntry.t) : Prop :=
  match o with
  | None => True
  | Some e => CACHE_DURATION <= now - CacheEntry.timestamp e
  end.

(** Tables that differ in such entries only. *)
Definition alike_rate (now : Z) (m1 m2 : gmap string RateLimitEntry.t) : Prop :=
  forall ip, m1 !! ip = m2 !! ip
             \/ (gone_rate now (m1 !! ip) /\ gone_rate now (m2 !! ip)).

Definition alike_cache (now : Z) (c1 c2 : gmap string CacheEntry.t) : Prop :=
  forall k, c1 !! k = c2 !! k
            \/ (gone_cache now (c1 !! k) /\ gone_cache now (c2 !! k)).

Definition alike (now : Z) (st1 st2 : Server) : Prop :=
  alike_rate now (rateLimit st1) (rateLimit st2)
  /\ alike_cache now (cache st1) (cache st2).

(** Three requests of one client with the timer firing between them: the
    second is served from the cache, the second tick sweeps both tables. *)
Definition sample_events : list Event :=
  [Arrives (sample_request 0 (FetchResponse true (Some sample_payload)));
   Tick 300000;
   Arrives (sample_request 400000 FetchRejected);
   Tick 2400000;
   Arrives (sample_request 2500000 (FetchResponse true (Some sample_payload)))].

(** ** Binary64 numbers as rationals *)

(** The primitive [float] operations are specified by [SpecFloat] on
    mantissa-exponent pairs; to bound what they return, a finite number
    [m * 2^e] is read as a rational. *)
Module Binary64.

(** Powers of two as rationals. *)
Definition pow2 (e : Z) : Q := Qpower 2 e.

(** The value of a finite number with mantissa [m] and exponent [e]. *)
Definition F2Q (m e : Z) : Q := (inject_Z m * pow2 e)%Q.

(** The last step of [binary_round_aux]. *)
Definition pack (m e : Z) : spec_float :=
  match m with
  | Z0 => S754_zero false
  | Zpos p => if e <=? emax - prec then S754_finite false p e else S754_infinity false
  | Zneg _ => S754_nan
  end.

(** The relative and the absolute error of one rounding. *)
Definition eps : Q := pow2 (-52).
Definition tiny : Q := pow2 (-1074).

(** [r] is the rounding of the positive real [x]. *)
Definition rounds_to (x : Q) (r : spec_float) : Prop :=
  exists m e,
    r = pack m e /\ 0 <= m
    /\ (x * (1 - eps) - tiny <= F2Q m e)%Q
    /\ (F2Q m e <= x * (1 + eps) + tiny)%Q.

(** Numbers known to be zero or positive and at most [q]; numbers known
    to be at least [q], possibly infinite. *)
Definition at_most (q : Q) (r : spec_float) : Prop :=
  (exists s, r = S754_zero s)
  \/ exists p e, r = S754_finite false p e /\ (F2Q (Zpos p) e <= q)%Q.

Definition at_least (q : Q) (r : spec_float) : Prop :=
  r = S754_infinity false
  \/ exists p e, r = S754_finite false p e /\ (q <= F2Q (Zpos p) e)%Q.

End Binary64.

(** ** The AQI conversion ([PurpleAirDisplay.tsx]) *)

Module AQI.

#[local] Set Warnings "-inexact-float".
Local Open Scope float_scope.

(** The binary64 number of an integer (exact below 2^53 in magnitude). *)
Definition of_Z (n : Z) : float :=
  match n with
  | Z0 => 0
  | Zpos _ => of_uint63 (Uint63Axioms.of_Z n)
  | Zneg p => - of_uint63 (Uint63Axioms.of_Z (Zpos p))
  end.

(** The built-in [Math.round], as ECMAScript defines it: the integral
    number closest to [x], the one towards +infinity on a tie; NaN, the
    infinities, the zeros and numbers that are integral already
    ([0 <= e]) are returned as they are; a result of magnitude zero keeps
    the sign of [x].  For [x = +-m * 2^e] with [e < 0] the integer is
    [floor (x + 1/2)], computed exactly on the mantissa. *)
Definition Math_round (x : float) : float :=
  match Prim2SF x with
  | S754_finite s m e =>
      if (0 <=? e)%Z then x
      else
        let n := ((cond_Zopp s (Zpos m) + 2 ^ (- e - 1)) / 2 ^ (- e))%Z in
        if (n =? 0)%Z then (if s then -0 else 0) else of_Z n
  | _ => x
  end.

Definition calculateAQI (pm25 : float) : float :=
  if pm25 <=? 12.0 then Math_round ((50 / 12.0) * pm25)
  else if pm25 <=? 35.4 then
    Math_round (((100 - 51) / (35.4 - 12.1)) * (pm25 - 12.1) + 51)
  else if pm25 <=? 55.4 then
    Math_round (((150 - 101) / (55.4 - 35.5)) * (pm25 - 35.5) + 101)
  else
    Math_round (((200 - 151) / (150.4 - 55.5)) * (pm25 - 55.5) + 151).

Record Category : Type := mkCategory { category : string; color : string }.

Definition getAQICategory (aqi : float) : Category :=
  if aqi <=? 50 then mkCategory "Good" "bg-green-500"
  else if aqi <=? 100 then mkCategory "Moderate" "bg-yellow-500"
  else if aqi <=? 150 then
    mkCategory "Unhealthy for Sensitive Groups" "bg-orange-500"
  else if aqi <=? 200 then mkCategory "Unhealthy" "bg-red-500"
  else mkCategory "Very Unhealthy" "bg-purple-500".

End AQI.

(** ** Signed binary64 numbers as rationals *)

Module Binary64Signed.
Import Binary64.

(** The value of a zero or finite number. *)
Definition SF2Q (r : spec_float) : option Q :=
  match r with
  | S754_zero _ => Some 0%Q
  | S754_finite s m e => Some (if s then - F2Q (Zpos m) e else F2Q (Zpos m) e)%Q
  | _ => None
  end.

(** [r] is zero or finite with a value between [lo] and [hi]. *)
Definition within (lo hi : Q) (r : spec_float) : Prop :=
  exists v, SF2Q r = Some v /\ (lo <= v)%Q /\ (v <= hi)%Q.

(** [r] is the rounding of the real [d], of either sign. *)
Definition approx (d : Q) (r : spec_float) : Prop :=
  ((d == 0)%Q /\ exists s, r = S754_zero s)
  \/ ((0 < d)%Q /\ rounds_to d r)
  \/ ((d < 0)%Q /\ exists r', r = SFopp r' /\ rounds_to (- d) r').

(** The signed value of a finite number. *)
Definition sval (s : bool) (m : positive) (e : Z) : Q :=
  (if s then - F2Q (Zpos m) e else F2Q (Zpos m) e)%Q.


End Binary64Signed.

(** * Properties *)

(** ** The rate limiter *)

Section RateLimiter.

Implicit Types (m : gmap string RateLimitEntry.t) (ip : string) (now : Z).

Lemma checkRateLimit_opens ip now m :
  opens_window ip now m ->
  checkRateLimit ip now m = (true, <[ip := RateLimitEntry.mk 1 now]> m).
Proof.
  unfold opens_window, checkRateLimit.
  destruct (m !! ip) as [e|]; [|done].
  intros H. destruct (Z.gtb_spec (now - RateLimitEntry.timestamp e) RATE_LIMIT_WINDOW);
    [done | lia].
Qed.

Lemma checkRateLimit_within ip now m c t0 :
  m !! ip = Some (RateLimitEntry.mk c t0) ->
  now - t0 <= RATE_LIMIT_WINDOW ->
  checkRateLimit ip now m =
    if c <? MAX_REQUESTS
    then (true, <[ip := RateLimitEntry.mk (c + 1) t0]> m)
    else (false, m).
Proof.
  intros Hm Hw. unfold checkRateLimit. rewrite Hm. simpl.
  destruct (Z.gtb_spec (now - t0) RATE_LIMIT_WINDOW); [lia | done].
Qed.

Lemma checkRateLimit_other ip ip' now m :
  ip' <> ip -> (checkRateLimit ip' now m).2 !! ip = m !! ip.
Proof.
  intros Hne. unfold checkRateLimit.
  destruct (m !! ip') as [e|]; simpl; [|by rewrite lookup_insert_ne].
  repeat case_match; simpl; by rewrite ?lookup_insert_ne.
Qed.

Lemma checkRateLimit_denied ip now m :
  (checkRateLimit ip now m).1 = false -> (checkRateLimit ip now m).2 = m.
Proof.
  unfold checkRateLimit. repeat case_match; simpl; congruence.
Qed.

(** Inside a window whose count is [c], the calls of [ip] are allowed
    until the count reaches [MAX_REQUESTS] and denied from then on. *)
Lemma window_budget ip calls : forall m c t0,
  m !! ip = Some (RateLimitEntry.mk c t0) ->
  Forall (fun t => t - t0 <= RATE_LIMIT_WINDOW) (times_for ip calls) ->
  verdicts_for ip calls m =
    replicate (Z.to_nat (MAX_REQUESTS - c) `min` length (times_for ip calls)) true
    ++ replicate (length (times_for ip calls) - Z.to_nat (MAX_REQUESTS - c)) false.
Proof.
  induction calls as [|[ip' now] calls IH]; intros m c t0 Hm Hall.
  { simpl. by rewrite Nat.min_0_r. }
  simpl in *. destruct (checkRateLimit ip' now m) as [b m'] eqn:Hc.
  destruct (decide (ip' = ip)) as [->|Hne].
  - apply Forall_cons in Hall as [Hnow Hall].
    rewrite (checkRateLimit_within _ _ _ _ _ Hm Hnow) in Hc.
    unfold MAX_REQUESTS in *. simpl length.
    destruct (Z.ltb_spec c 10); inversion Hc; subst b m'; clear Hc.
    + rewrite (IH _ (c + 1) t0); [|by rewrite lookup_insert_eq|done].
      replace (Z.to_nat (10 - c)) with (S (Z.to_nat (10 - (c + 1)))) by lia.
      done.
    + rewrite (IH _ c t0); [|done..].
      replace (Z.to_nat (10 - c)) with 0%nat by lia. simpl.
      by rewrite Nat.sub_0_r.
  - apply (IH m' c t0); [|done].
    replace m' with (checkRateLimit ip' now m).2 by (by rewrite Hc).
    by rewrite checkRateLimit_other.
Qed.

End RateLimiter.

(** ** The handler and the rate limiter *)

Section HandlerRate.

Variable apiKey : option string.

Lemma GET_enter_rateLimit ip sid t1 t2 st :
  rateLimit (GET_enter apiKey ip sid t1 t2 st).2
  = (checkRateLimit ip t1 (rateLimit st)).2.
Proof.
  unfold GET_enter. destruct (checkRateLimit _ _ _) as [[] m']; simpl;
    [|done].
  destruct (getCachedData _ _ _) as [d c']. by destruct (truthy d).
Qed.

Lemma GET_enter_denied ip sid t1 t2 st :
  (checkRateLimit ip t1 (rateLimit st)).1 = false ->
  GET_enter apiKey ip sid t1 t2 st = (Answered rate_limit_response, st).
Proof.
  intros Hd. pose proof (checkRateLimit_denied _ _ _ Hd) as Hm.
  unfold GET_enter. destruct (checkRateLimit _ _ _) as [b m']; simpl in *.
  subst b m'. simpl. by destruct st.
Qed.

Lemma GET_enter_allowed ip sid t1 t2 st :
  (checkRateLimit ip t1 (rateLimit st)).1 = true ->
  forall r, (GET_enter apiKey ip sid t1 t2 st).1 = Answered r -> status r = 200.
Proof.
  intros Ha r. unfold GET_enter.
  destruct (checkRateLimit _ _ _) as [b m']; simpl in *. subst b. simpl.
  destruct (getCachedData _ _ _) as [d c']. destruct (truthy d); simpl; [|done].
  by intros [= <-].
Qed.

Lemma handle_rateLimit r st :
  rateLimit (handle apiKey r st).2
  = (checkRateLimit (Route.client_ip (headers r)) (t_rate r) (rateLimit st)).2.
Proof.
  unfold handle, Route.GET, run_GET.
  rewrite <- (GET_enter_rateLimit _ (sensorId r) _ (t_cache r)).
  destruct (GET_enter _ _ _ _ _ _) as [[resp|req] st']; simpl; [done|].
  unfold Route.GET_resume. by destruct (fetched_payload _).
Qed.

Lemma handle_denied r st :
  (checkRateLimit (Route.client_ip (headers r)) (t_rate r) (rateLimit st)).1 = false ->
  handle apiKey r st = (rate_limit_response, [], st).
Proof.
  intros Hd. unfold handle, Route.GET, run_GET. by rewrite GET_enter_denied.
Qed.

Lemma handle_allowed r st :
  (checkRateLimit (Route.client_ip (headers r)) (t_rate r) (rateLimit st)).1 = true ->
  status (handle apiKey r st).1.1 <> 429.
Proof.
  intros Ha. unfold handle, Route.GET, run_GET.
  pose proof (GET_enter_allowed _ (sensorId r) _ (t_cache r) _ Ha) as H.
  destruct (GET_enter _ _ _ _ _ _) as [[resp|req] st']; simpl in *.
  - by rewrite (H resp).
  - unfold Route.GET_resume. by destruct (fetched_payload _).
Qed.

(** The responses a client gets follow the verdicts of its rate checks. *)
Lemma serve_verdicts ip reqs : forall st,
  Forall2 (fun (allowed : bool) resp =>
             if allowed then status resp <> 429 else resp = rate_limit_response)
          (verdicts_for ip (rate_calls reqs) (rateLimit st))
          (responses_for ip (serve apiKey reqs st)).
Proof.
  induction reqs as [|r reqs IH]; intros st; simpl; [constructor|].
  pose proof (handle_rateLimit r st) as Hrl.
  pose proof (handle_denied r st) as Hd.
  pose proof (handle_allowed r st) as Ha.
  destruct (checkRateLimit _ _ _) as [b m'].
  destruct (handle apiKey r st) as [[resp calls] st']. simpl in *. subst m'.
  destruct (decide (_ = ip)); [|apply IH].
  constructor; [|apply IH].
  destruct b; [by apply Ha|]. by injection (Hd eq_refl).
Qed.

End HandlerRate.

Section ElevenRequests.

Implicit Types (m : gmap string RateLimitEntry.t) (ip : string).

(** Limiter level: the call that opens the window is allowed, and of the
    calls that follow inside the window nine more are. *)
Lemma window_opened ip calls : forall m t0 rest,
  times_for ip calls = t0 :: rest ->
  opens_window ip t0 m ->
  Forall (fun t => t - t0 <= RATE_LIMIT_WINDOW) rest ->
  verdicts_for ip calls m =
    true :: replicate (9 `min` length rest) true
         ++ replicate (length rest - 9) false.
Proof.
  induction calls as [|[ip' now] calls IH]; intros m t0 rest Ht Ho Hall;
    [done|].
  simpl in *. destruct (checkRateLimit ip' now m) as [b m'] eqn:Hc.
  destruct (decide (ip' = ip)) as [->|Hne].
  - injection Ht as -> Ht.
    rewrite (checkRateLimit_opens _ _ _ Ho) in Hc. inversion Hc; subst b m'.
    f_equal. rewrite <- Ht in *.
    by rewrite (window_budget ip calls _ 1 t0); [|by rewrite lookup_insert_eq|].
  - apply (IH m' t0 rest); [done| |done].
    unfold opens_window in *.
    replace m' with (checkRateLimit ip' now m).2 by (by rewrite Hc).
    by rewrite checkRateLimit_other.
Qed.

(** C1.  Whatever requests the route serves one after the other, if a
    client's requests among them are eleven, the first of them opens a
    window (no entry, or an elapsed one) and the ten others reach the
    rate limiter no later than 300 seconds after that window's start,
    then the limiter allows the first ten and denies the eleventh, and
    the client's eleventh response is the 429 rejection while none of
    its first ten is. *)
Theorem eleventh_request_denied (apiKey : option string) ip
    (reqs : list Request) (st : Server) (t0 : Z) (rest : list Z) :
  times_for ip (rate_calls reqs) = t0 :: rest ->
  length rest = 10%nat ->
  opens_window ip t0 (rateLimit st) ->
  Forall (fun t => t - t0 <= RATE_LIMIT_WINDOW) rest ->
  verdicts_for ip (rate_calls reqs) (rateLimit st) = replicate 10 true ++ [false]
  /\ exists first_ten,
       responses_for ip (serve apiKey reqs st) = first_ten ++ [rate_limit_response]
       /\ length first_ten = 10%nat
       /\ Forall (fun r => status r <> 429) first_ten.
Proof.
  intros Ht Hlen Ho Hall.
  assert (Hv : verdicts_for ip (rate_calls reqs) (rateLimit st)
               = replicate 10 true ++ [false]).
  { rewrite (window_opened _ _ _ _ _ Ht Ho Hall), Hlen. done. }
  split; [done|].
  pose proof (serve_verdicts apiKey ip reqs st) as H2. rewrite Hv in H2.
  apply Forall2_app_inv_l in H2 as (first_ten & last & H10 & H1 & ->).
  apply Forall2_cons_inv_l in H1 as (r & tl & -> & Hnil & ->).
  apply Forall2_nil_inv_l in Hnil as ->.
  exists first_ten. split; [done|]. split.
  - by rewrite <- (Forall2_length _ _ _ H10).
  - clear -H10. remember (replicate 10 true) as bs eqn:Hbs.
    assert (Hall : Forall (fun b => b = true) bs)
      by (subst bs; repeat constructor).
    clear Hbs. induction H10 as [|b r bs rs Hbr _ IH]; [constructor|].
    apply Forall_cons in Hall as [-> Hall]. constructor; [done|by apply IH].
Qed.

End ElevenRequests.

(** ** The sweep *)

Section Sweep.

(** A fold that deletes from [table] the keys whose entry in [m]
    satisfies [old]. *)
Lemma sweep_fold_lookup {A} (old : A -> bool) (table m : gmap string A) k :
  map_fold (fun k x t => if old x then delete k t else t) table m !! k
  = match m !! k with
    | Some x => if old x then None else table !! k
    | None => table !! k
    end.
Proof.
  revert k.
  apply (map_fold_weak_ind
           (fun r m => forall k, r !! k = match m !! k with
                                   | Some x => if old x then None else table !! k
                                   | None => table !! k
                                   end)).
  - intros k. by rewrite lookup_empty.
  - intros i x m' r Hi IH k. destruct (decide (i = k)) as [->|Hne].
    + rewrite lookup_insert_eq. destruct (old x).
      * by rewrite lookup_delete_eq.
      * by rewrite IH, Hi.
    + rewrite lookup_insert_ne by done. destruct (old x).
      * by rewrite lookup_delete_ne.
      * apply IH.
Qed.

Lemma sweepRateLimit_lookup now (m : gmap string RateLimitEntry.t) ip :
  sweepRateLimit now m !! ip
  = match m !! ip with
    | Some e =>
        if now - RateLimitEntry.timestamp e >? RATE_LIMIT_WINDOW
        then None else Some e
    | None => None
    end.
Proof.
  unfold sweepRateLimit.
  rewrite (sweep_fold_lookup
             (fun e => now - RateLimitEntry.timestamp e >? RATE_LIMIT_WINDOW)).
  by destruct (m !! ip).
Qed.

Lemma sweepCache_lookup now (c : gmap string CacheEntry.t) k :
  sweepCache now c !! k
  = match c !! k with
    | Some e =>
        if now - CacheEntry.timestamp e >? CACHE_DURATION
        then None else Some e
    | None => None
    end.
Proof.
  unfold sweepCache.
  rewrite (sweep_fold_lookup
             (fun e => now - CacheEntry.timestamp e >? CACHE_DURATION)).
  by destruct (c !! k).
Qed.

(** C8.  The callback the timer runs (registered with a period of
    300000 ms, a step of its own whatever the requests do) deletes from
    the rate-limit table exactly the entries older than the 300-second
    window and from the cache exactly the entries older than the
    30-minute duration; every other entry, and every absent key, is as
    before.  The sweep inlined in the other revision's [setCachedData]
    does the same to the rate-limit table and to every cache key but the
    one it then stores. *)
Theorem sweep_removes_exactly_the_old (now : Z) (st : Server) :
  Route.CLEANUP_INTERVAL = 5 * 60 * 1000
  /\ Route.step st (Route.cleanup now st)
  /\ (forall ip e, rateLimit st !! ip = Some e ->
        (now - RateLimitEntry.timestamp e > 300 * 1000 ->
           rateLimit (Route.cleanup now st) !! ip = None)
        /\ (now - RateLimitEntry.timestamp e <= 300 * 1000 ->
             rateLimit (Route.cleanup now st) !! ip = Some e))
  /\ (forall ip, rateLimit st !! ip = None ->
        rateLimit (Route.cleanup now st) !! ip = None)
  /\ (forall k e, cache st !! k = Some e ->
        (now - CacheEntry.timestamp e > 30 * 60 * 1000 ->
           cache (Route.cleanup now st) !! k = None)
        /\ (now - CacheEntry.timestamp e <= 30 * 60 * 1000 ->
             cache (Route.cleanup now st) !! k = Some e))
  /\ (forall k, cache st !! k = None ->
        cache (Route.cleanup now st) !! k = None)
  /\ (forall k d,
        rateLimit (RouteTyped.setCachedData k d now st)
        = rateLimit (Route.cleanup now st)
        /\ forall k', k' <> k ->
             cache (RouteTyped.setCachedData k d now st) !! k'
             = cache (Route.cleanup now st) !! k').
Proof.
  split; [done|]. split; [constructor|]. simpl.
  repeat split; try (intros; by rewrite lookup_insert_ne).
  - intros Hold. rewrite sweepRateLimit_lookup, H.
    destruct (Z.gtb_spec (now - RateLimitEntry.timestamp e) RATE_LIMIT_WINDOW);
      [done|unfold RATE_LIMIT_WINDOW in *; lia].
  - intros Hyoung. rewrite sweepRateLimit_lookup, H.
    destruct (Z.gtb_spec (now - RateLimitEntry.timestamp e) RATE_LIMIT_WINDOW);
      [unfold RATE_LIMIT_WINDOW in *; lia|done].
  - intros ip H. by rewrite sweepRateLimit_lookup, H.
  - intros Hold. rewrite sweepCache_lookup, H.
    destruct (Z.gtb_spec (now - CacheEntry.timestamp e) CACHE_DURATION);
      [done|unfold CACHE_DURATION in *; lia].
  - intros Hyoung. rewrite sweepCache_lookup, H.
    destruct (Z.gtb_spec (now - CacheEntry.timestamp e) CACHE_DURATION);
      [unfold CACHE_DURATION in *; lia|done].
  - intros k H. by rewrite sweepCache_lookup, H.
Qed.

End Sweep.

(** ** The cache *)

Section Cache.

(** C5.  [getCachedData] returns the stored payload, and leaves the table
    alone, when the entry is less than 30 minutes old; for an entry that
    is 30 minutes old or older it deletes the entry and returns [null]; so
    the entry is still there after the call exactly when it is less than
    30 minutes old.  For a key without entry it returns [null].  [setCachedData] leaves
    the key bound to the given payload and the current clock reading
    whatever was there before, in both revisions; in the revision without
    the inlined sweep it changes nothing else. *)
Theorem cache_get_put (k : string) (now : Z) (st : Server) (d : json) :
  (forall e, cache st !! k = Some e ->
     (now - CacheEntry.timestamp e < 30 * 60 * 1000 ->
        getCachedData k now (cache st) = (CacheEntry.data e, cache st))
     /\ (30 * 60 * 1000 <= now - CacheEntry.timestamp e ->
          getCachedData k now (cache st) = (JNull, delete k (cache st))
          /\ delete k (cache st) !! k = None)
     /\ ((getCachedData k now (cache st)).2 !! k = Some e
         <-> now - CacheEntry.timestamp e < 30 * 60 * 1000))
  /\ (cache st !! k = None -> getCachedData k now (cache st) = (JNull, cache st))
  /\ cache (Route.setCachedData k d now st) !! k = Some (CacheEntry.mk d now)
  /\ (forall k', k' <> k ->
        cache (Route.setCachedData k d now st) !! k' = cache st !! k')
  /\ rateLimit (Route.setCachedData k d now st) = rateLimit st
  /\ cache (RouteTyped.setCachedData k d now st) !! k = Some (CacheEntry.mk d now).
Proof.
  repeat split.
  - intros Hfresh. unfold getCachedData. rewrite H.
    destruct (Z.ltb_spec (now - CacheEntry.timestamp e) CACHE_DURATION);
      [done|unfold CACHE_DURATION in *; lia].
  - unfold getCachedData. rewrite H.
    destruct (Z.ltb_spec (now - CacheEntry.timestamp e) CACHE_DURATION);
      [unfold CACHE_DURATION in *; lia|done].
  - apply lookup_delete_eq.
  - unfold getCachedData. rewrite H.
    destruct (Z.ltb_spec (now - CacheEntry.timestamp e) CACHE_DURATION);
      simpl; [unfold CACHE_DURATION in *; lia|by rewrite lookup_delete_eq].
  - intros Hfresh. unfold getCachedData. rewrite H.
    destruct (Z.ltb_spec (now - CacheEntry.timestamp e) CACHE_DURATION);
      [done|unfold CACHE_DURATION in *; lia].
  - intros H. unfold getCachedData. by rewrite H.
  - simpl. apply lookup_insert_eq.
  - intros k' Hne. simpl. by rewrite lookup_insert_ne.
  - simpl. apply lookup_insert_eq.
Qed.

End Cache.

(** ** The count invariant *)

Section CountInvariant.

Lemma count_bounded_empty : count_bounded ∅.
Proof. intros ip e. by rewrite lookup_empty. Qed.

Lemma checkRateLimit_count_bounded ip now m :
  count_bounded m -> count_bounded (checkRateLimit ip now m).2.
Proof.
  intros Hm ip' e'. unfold checkRateLimit.
  destruct (m !! ip) as [e|] eqn:He; simpl.
  - destruct (Z.gtb_spec (now - RateLimitEntry.timestamp e) RATE_LIMIT_WINDOW);
      [|destruct (Z.ltb_spec (RateLimitEntry.count e) MAX_REQUESTS)]; simpl;
      try apply Hm;
      (destruct (decide (ip = ip')) as [->|Hne];
       [rewrite lookup_insert_eq; intros [= <-]; simpl
       |rewrite lookup_insert_ne by done; apply Hm]).
    + unfold MAX_REQUESTS; lia.
    + pose proof (Hm _ _ He). lia.
  - destruct (decide (ip = ip')) as [->|Hne];
      [rewrite lookup_insert_eq; intros [= <-]; simpl; unfold MAX_REQUESTS; lia
      |rewrite lookup_insert_ne by done; apply Hm].
Qed.

Lemma sweepRateLimit_count_bounded now m :
  count_bounded m -> count_bounded (sweepRateLimit now m).
Proof.
  intros Hm ip e. rewrite sweepRateLimit_lookup.
  destruct (m !! ip) as [e0|] eqn:He; [|done].
  destruct (_ >? _); [done|]. intros [= <-]. by apply (Hm ip).
Qed.

Lemma Route_step_count_bounded st st' :
  Route.step st st' -> count_bounded (rateLimit st) -> count_bounded (rateLimit st').
Proof.
  intros [apiKey ip sid t1 t2 s|sid o t s|now s] Hb.
  - rewrite GET_enter_rateLimit. by apply checkRateLimit_count_bounded.
  - unfold Route.GET_resume. by destruct (fetched_payload o).
  - simpl. by apply sweepRateLimit_count_bounded.
Qed.

Lemma RouteTyped_step_count_bounded st st' :
  RouteTyped.step st st' -> count_bounded (rateLimit st) -> count_bounded (rateLimit st').
Proof.
  intros [apiKey ip sid t1 t2 s|sid o t s] Hb.
  - rewrite GET_enter_rateLimit. by apply checkRateLimit_count_bounded.
  - unfold RouteTyped.GET_resume. destruct (fetched_payload o); [|done].
    simpl. by apply sweepRateLimit_count_bounded.
Qed.

Lemma reachable_count_bounded step :
  (forall st st', step st st' -> count_bounded (rateLimit st) ->
                  count_bounded (rateLimit st')) ->
  forall st, reachable step st -> count_bounded (rateLimit st).
Proof.
  intros Hstep st Hr. induction Hr as [|st st' _ IH Hs].
  - apply count_bounded_empty.
  - by apply (Hstep st).
Qed.

(** C9.  In every state either revision of the route can reach from the
    empty tables, every rate-limit entry has a count between 1 and 10;
    and on any table with that property the rate check, for any client
    and clock reading, and the sweep, for any clock reading, leave a
    table with that property. *)
Theorem count_between_1_and_10 :
  (forall st, reachable Route.step st ->
     forall ip e, rateLimit st !! ip = Some e -> 1 <= RateLimitEntry.count e <= 10)
  /\ (forall st, reachable RouteTyped.step st ->
       forall ip e, rateLimit st !! ip = Some e -> 1 <= RateLimitEntry.count e <= 10)
  /\ (forall m, count_bounded m ->
       forall ip now, count_bounded (checkRateLimit ip now m).2)
  /\ (forall m, count_bounded m -> forall now, count_bounded (sweepRateLimit now m)).
Proof.
  split; [|split; [|split]].
  - intros st Hr. apply (reachable_count_bounded _ Route_step_count_bounded _ Hr).
  - intros st Hr.
    apply (reachable_count_bounded _ RouteTyped_step_count_bounded _ Hr).
  - intros m Hm ip now. by apply checkRateLimit_count_bounded.
  - intros m Hm now. by apply sweepRateLimit_count_bounded.
Qed.

End CountInvariant.

(** ** Denial *)

Section Denial.

(** C10.  When the rate check denies, the handler (the stretch both
    revisions share, and so each revision's [GET]) answers with the 429
    rejection, makes no upstream call and leaves both tables exactly as
    they were; the rate check itself returns the table it was given. *)
Theorem denial_writes_nothing (apiKey : option string) (ip : string)
    (r : Request) (st : Server) :
  (checkRateLimit ip (t_rate r) (rateLimit st)).1 = false ->
  (checkRateLimit ip (t_rate r) (rateLimit st)).2 = rateLimit st
  /\ GET_enter apiKey ip (sensorId r) (t_rate r) (t_cache r) st
     = (Answered rate_limit_response, st)
  /\ run_GET Route.GET_resume apiKey ip (sensorId r) (t_rate r) (t_cache r)
             (t_store r) (upstream r) st
     = (rate_limit_response, [], st)
  /\ run_GET RouteTyped.GET_resume apiKey ip (sensorId r) (t_rate r) (t_cache r)
             (t_store r) (upstream r) st
     = (rate_limit_response, [], st).
Proof.
  intros Hd. split; [by apply checkRateLimit_denied|].
  unfold run_GET. by rewrite GET_enter_denied.
Qed.

End Denial.

(** ** Cache reuse across requests *)

Section CacheReuse.

Variable apiKey : option string.

Lemma fetched_payload_None o : fetched_payload o = None <-> fetch_failed o.
Proof.
  unfold fetch_failed, listed_failure. destruct o as [|[] [d|]]; simpl;
    split; intros H; try done; eauto.
  by destruct H as [[H|[p H]]|H].
Qed.

(** The handler, case by case. *)
Lemma handle_cases r st :
  let ip := Route.client_ip (headers r) in
  let verdict := checkRateLimit ip (t_rate r) (rateLimit st) in
  let looked := getCachedData (sensorId r) (t_cache r) (cache st) in
  let req := upstream_request apiKey (sensorId r) in
  handle apiKey r st =
    if negb verdict.1 then (rate_limit_response, [], mkServer verdict.2 (cache st))
    else if truthy looked.1 then
      (NextResponse_json looked.1 None, [], mkServer verdict.2 looked.2)
    else match fetched_payload (upstream r req) with
         | Some d =>
             (NextResponse_json d None, [req],
              mkServer verdict.2 (<[sensorId r := CacheEntry.mk d (t_store r)]> looked.2))
         | None => (fetch_failure_response, [req], mkServer verdict.2 looked.2)
         end.
Proof.
  intros ip verdict looked req. subst ip verdict looked req.
  unfold handle, Route.GET, run_GET, GET_enter.
  destruct (checkRateLimit _ _ _) as [[] m']; simpl; [|done].
  destruct (getCachedData _ _ _) as [d c']; simpl.
  destruct (truthy d); [done|].
  unfold Route.GET_resume. by destruct (fetched_payload _).
Qed.


Lemma GET_enter_miss ip sid t t' st :
  cache st !! sid = None ->
  (checkRateLimit ip t (rateLimit st)).1 = true ->
  GET_enter apiKey ip sid t t' st
  = (Fetching (upstream_request apiKey sid),
     mkServer (checkRateLimit ip t (rateLimit st)).2 (cache st)).
Proof.
  intros Hmiss Hok. unfold GET_enter, getCachedData. rewrite Hmiss.
  destruct (checkRateLimit ip t (rateLimit st)) as [b m]. simpl in *. by subst b.
Qed.

(** Requests that overlap are another matter: when the second enters
    while the first still awaits the upstream, it finds no entry either
    and calls upstream too. *)
Lemma overlapping_requests_both_fetch ip1 ip2 sid t1 t1' t2 t2' st :
  cache st !! sid = None ->
  (checkRateLimit ip1 t1 (rateLimit st)).1 = true ->
  (checkRateLimit ip2 t2 (checkRateLimit ip1 t1 (rateLimit st)).2).1 = true ->
  let first := GET_enter apiKey ip1 sid t1 t1' st in
  let second := GET_enter apiKey ip2 sid t2 t2' first.2 in
  first.1 = Fetching (upstream_request apiKey sid)
  /\ second.1 = Fetching (upstream_request apiKey sid).
Proof.
  intros Hmiss H1 H2. cbv zeta. rewrite (GET_enter_miss ip1) by done.
  split; [done|]. by rewrite (GET_enter_miss ip2).
Qed.

End CacheReuse.

(** ** The two failure responses *)

Section FailureKinds.

Variable apiKey : option string.

(** The revisions differ in what they store, not in what they answer. *)
Lemma run_GET_same_answer ip sid t1 t2 t3 up st :
  (run_GET RouteTyped.GET_resume apiKey ip sid t1 t2 t3 up st).1
  = (run_GET Route.GET_resume apiKey ip sid t1 t2 t3 up st).1.
Proof.
  unfold run_GET. destruct (GET_enter _ _ _ _ _ _) as [[resp|req] st']; [done|].
  unfold RouteTyped.GET_resume, Route.GET_resume.
  by destruct (fetched_payload _).
Qed.

(** C7, as amended.  The handler answers 429 exactly when the rate check
    denies, and then with the rejection body; it answers 500 exactly when
    it made the upstream call and that call failed: [fetch] rejected,
    the response was not [ok], or the body of an [ok] response could not
    be read as JSON, all three with the one generic body; in every other
    case it answers 200 with the payload, the cached one when it made no
    upstream call and the upstream's otherwise. *)
Theorem failure_kinds (r : Request) (st : Server) :
  let resp := (handle apiKey r st).1.1 in
  let calls := (handle apiKey r st).1.2 in
  let allowed :=
    (checkRateLimit (Route.client_ip (headers r)) (t_rate r) (rateLimit st)).1 in
  (status resp = 429 <-> allowed = false)
  /\ (status resp = 429 -> resp = rate_limit_response)
  /\ (status resp = 500 <->
       exists req, calls = [req] /\ fetch_failed (upstream r req))
  /\ (status resp = 500 -> resp = fetch_failure_response)
  /\ (status resp <> 429 -> status resp <> 500 ->
       status resp = 200
       /\ ((calls = []
            /\ body resp = (getCachedData (sensorId r) (t_cache r) (cache st)).1)
           \/ exists req, calls = [req]
                /\ upstream r req = FetchResponse true (Some (body resp)))).
Proof.
  simpl. rewrite handle_cases.
  destruct (checkRateLimit _ _ _) as [[] m']; simpl.
  2:{ repeat split; try done. intros (req & H & _); done. }
  destruct (truthy _); simpl.
  { repeat split; try done.
    - intros (req & H & _); done.
    - by left. }
  destruct (fetched_payload _) as [d|] eqn:Hf; simpl.
  - repeat split; try done.
    + intros (req & [= <-] & Hfail). apply fetched_payload_None in Hfail.
      congruence.
    + right. eexists. split; [done|].
      destruct (upstream r _) as [|[] [d'|]]; simpl in Hf; congruence.
  - repeat split; try done.
    intros _. eexists. split; [done|]. by apply fetched_payload_None.
Qed.

End FailureKinds.

(** ** Counterexamples and instances *)


(** C7, counterexample.  The upstream answers 200 with a body that is not
    JSON: the handler answers 500 though [fetch] did not reject and the
    status was a success. *)
Lemma status_500_without_listed_failure : ~ status_500_iff_listed_failure.
Proof.
  intros H.
  destruct (H None (sample_request 0 (FetchResponse true None)) initial) as [H1 _].
  destruct H1 as (req & _ & [Hrej|[p Hns]]); [reflexivity|..]; discriminate.
Qed.

(** C1 at eleven requests 20 seconds apart, another client's in between. *)
Lemma eleventh_request_denied_instance :
  verdicts_for "203.0.113.7" (rate_calls eleven_requests) (rateLimit initial)
  = replicate 10 true ++ [false]
  /\ exists first_ten,
       responses_for "203.0.113.7" (serve None eleven_requests initial)
       = first_ten ++ [rate_limit_response]
       /\ length first_ten = 10%nat
       /\ Forall (fun r => status r <> 429) first_ten.
Proof.
  apply (eleventh_request_denied None "203.0.113.7" eleven_requests initial 1000
           (map (fun i => 1000 + 20000 * Z.of_nat i) (seq 1 10))).
  - reflexivity.
  - reflexivity.
  - exact I.
  - repeat constructor; vm_compute; discriminate.
Defined.


(** C10 at a client that has used up its window. *)
Lemma denial_writes_nothing_instance :
  let r := sample_request 1000 (FetchResponse true (Some sample_payload)) in
  (checkRateLimit "203.0.113.7" (t_rate r) (rateLimit exhausted)).2 = rateLimit exhausted
  /\ GET_enter None "203.0.113.7" (sensorId r) (t_rate r) (t_cache r) exhausted
     = (Answered rate_limit_response, exhausted)
  /\ run_GET Route.GET_resume None "203.0.113.7" (sensorId r) (t_rate r) (t_cache r)
             (t_store r) (upstream r) exhausted
     = (rate_limit_response, [], exhausted)
  /\ run_GET RouteTyped.GET_resume None "203.0.113.7" (sensorId r) (t_rate r)
             (t_cache r) (t_store r) (upstream r) exhausted
     = (rate_limit_response, [], exhausted).
Proof.
  intros r.
  apply (denial_writes_nothing None "203.0.113.7" r exhausted).
  vm_compute. reflexivity.
Defined.

(** Two overlapping requests on the empty tables. *)
Lemma overlapping_requests_instance :
  let first := GET_enter None "203.0.113.7" "68657" 0 0 initial in
  let second := GET_enter None "198.51.100.9" "68657" 1 1 first.2 in
  first.1 = Fetching (upstream_request None "68657")
  /\ second.1 = Fetching (upstream_request None "68657").
Proof.
  apply (overlapping_requests_both_fetch None "203.0.113.7" "198.51.100.9"
           "68657" 0 0 1 1 initial); reflexivity.
Defined.

(** ** Rounding in binary64 *)

Module Binary64Facts.
Import Binary64.



Lemma pow2_pos e : (0 < pow2 e)%Q.
Proof. apply Qpower_0_lt. reflexivity. Qed.

Lemma pow2_add a b : (pow2 (a + b) == pow2 a * pow2 b)%Q.
Proof. apply Qpower_plus. discriminate. Qed.

Lemma pow2_le a b : a <= b -> (pow2 a <= pow2 b)%Q.
Proof. intros H. apply Qpower_le_compat_l; [done|discriminate]. Qed.

Lemma pow2_Z n : 0 <= n -> (pow2 n == inject_Z (2 ^ n))%Q.
Proof. intros H. unfold pow2. by rewrite Zpower_Qpower. Qed.


Lemma digits2_bounds p :
  2 ^ (Zpos (digits2_pos p) - 1) <= Zpos p < 2 ^ Zpos (digits2_pos p).
Proof.
  induction p as [p IH|p IH|]; simpl digits2_pos; [| |by compute].
  - rewrite Pos2Z.inj_succ.
    replace (Z.succ (Zpos (digits2_pos p)) - 1) with (Z.succ (Zpos (digits2_pos p) - 1)) by lia.
    rewrite !Z.pow_succ_r by lia. lia.
  - rewrite Pos2Z.inj_succ.
    replace (Z.succ (Zpos (digits2_pos p)) - 1) with (Z.succ (Zpos (digits2_pos p) - 1)) by lia.
    rewrite !Z.pow_succ_r by lia. lia.
Qed.

Lemma shr_1_m mrs : 0 <= shr_m mrs -> shr_m (shr_1 mrs) = shr_m mrs / 2.
Proof.
  destruct mrs as [m r s]. simpl. intros Hm.
  destruct m as [|[p|p|]|p]; simpl; try lia; try done.
  - rewrite Pos2Z.inj_xI. apply (Z.div_unique _ _ _ 1); lia.
  - rewrite Pos2Z.inj_xO. apply (Z.div_unique _ _ _ 0); lia.
Qed.

Lemma iter_shr_1_m n : forall mrs,
  0 <= shr_m mrs -> shr_m (SpecFloat.iter_pos shr_1 n mrs) = shr_m mrs / 2 ^ Zpos n.
Proof.
  assert (Hnn : forall mrs, 0 <= shr_m mrs -> 0 <= shr_m (shr_1 mrs)).
  { intros mrs H. rewrite shr_1_m by done. by apply Z.div_pos. }
  induction n as [n IH|n IH|]; intros mrs Hm; simpl SpecFloat.iter_pos.
  - rewrite IH, IH, shr_1_m; try done.
    + rewrite !Z.div_div by (try apply Z.pow_pos_nonneg; lia).
      f_equal. replace (Zpos n~1) with (1 + Zpos n + Zpos n) by lia.
      rewrite !Z.pow_add_r by lia. lia.
    + by apply Hnn.
    + rewrite IH by (by apply Hnn). apply Z.div_pos; [by apply Hnn|].
      apply Z.pow_pos_nonneg; lia.
  - rewrite IH, IH; try done.
    + rewrite !Z.div_div by (try apply Z.pow_pos_nonneg; lia).
      f_equal. replace (Zpos n~0) with (Zpos n + Zpos n) by lia.
      rewrite !Z.pow_add_r by lia. lia.
    + rewrite IH by done. apply Z.div_pos; [done|].
      apply Z.pow_pos_nonneg; lia.
  - by rewrite shr_1_m.
Qed.


Lemma shr_spec mrs e n :
  0 <= shr_m mrs ->
  shr_m (shr mrs e n).1 = shr_m mrs / 2 ^ Z.max 0 n
  /\ (shr mrs e n).2 = e + Z.max 0 n
  /\ (n <= 0 -> (shr mrs e n).1 = mrs).
Proof.
  intros Hm. destruct n as [|p|p]; simpl.
  - rewrite Z.div_1_r. split; [done|]. split; [lia|done].
  - rewrite iter_shr_1_m by done. split; [done|]. split; [done|lia].
  - rewrite Z.div_1_r. split; [done|]. split; [lia|done].
Qed.

Lemma round_nearest_even_bounds m l :
  m <= round_nearest_even m l <= m + 1.
Proof.
  destruct l as [|[]]; simpl; try lia. destruct (Z.even m); lia.
Qed.


Lemma Zdigits2_bounds m :
  0 < m -> 2 ^ (Zdigits2 m - 1) <= m < 2 ^ Zdigits2 m.
Proof. destruct m as [|p|p]; [lia| |lia]. intros _. apply digits2_bounds. Qed.

(** [binary_round_aux] on a positive integer mantissa, in integers: the
    mantissa is shifted right by [k1] places, moved up by at most one, and
    shifted again by [k2] places without loss. *)
Lemma binary_round_aux_shifts (M : positive) (E : Z) :
  exists k1 m1' k2 m2,
    binary_round_aux prec emax false (Zpos M) E loc_Exact = pack m2 (E + k1 + k2)
    /\ 0 <= k1 /\ 0 <= k2 /\ 0 <= m2
    /\ Zpos M / 2 ^ k1 <= m1' <= Zpos M / 2 ^ k1 + 1
    /\ (k1 = 0 -> m1' = Zpos M)
    /\ (0 < k1 -> E + k1 = fexp prec emax (Zpos (digits2_pos M) + E))
    /\ m2 * 2 ^ k2 = m1'.
Proof.
  unfold binary_round_aux, shr_fexp.
  set (n1 := fexp prec emax (Zdigits2 (Zpos M) + E) - E).
  set (mrs0 := shr_record_of_loc (Zpos M) loc_Exact).
  destruct (shr_spec mrs0 E n1) as (Hm1 & He1 & Hid1); [simpl; lia|].
  destruct (shr mrs0 E n1) as [mrs1 e1]. simpl in Hm1, He1, Hid1. subst e1.
  set (m1' := round_nearest_even (shr_m mrs1) (loc_of_shr_record mrs1)).
  set (e1 := E + Z.max 0 n1).
  set (n2 := fexp prec emax (Zdigits2 m1' + e1) - e1).
  pose proof (round_nearest_even_bounds (shr_m mrs1) (loc_of_shr_record mrs1)) as Hr.
  fold m1' in Hr. rewrite Hm1 in Hr.
  assert (Hpow1 : 0 < 2 ^ Z.max 0 n1) by (apply Z.pow_pos_nonneg; lia).
  assert (Hm1pos : 0 <= Zpos M / 2 ^ Z.max 0 n1) by (apply Z.div_pos; lia).
  destruct (shr_spec (shr_record_of_loc m1' loc_Exact) e1 n2) as (Hm2 & He2 & _);
    [simpl; lia|].
  destruct (shr (shr_record_of_loc m1' loc_Exact) e1 n2) as [mrs2 e2].
  simpl in Hm2, He2. subst e2.
  exists (Z.max 0 n1), m1', (Z.max 0 n2), (shr_m mrs2).
  assert (Hexact1 : n1 <= 0 -> m1' = Zpos M).
  { intros Hn. unfold m1'. rewrite (Hid1 Hn). done. }
  pose proof (digits2_bounds M) as HdM.
  (* the first shift leaves at most 53 digits *)
  assert (Hm1lt : Zpos M / 2 ^ Z.max 0 n1 < 2 ^ 53).
  { destruct (Z.le_gt_cases n1 0) as [Hn|Hn].
    - rewrite Z.max_l, Z.div_1_r by lia.
      assert (Zpos (digits2_pos M) <= 53)
        by (unfold n1, fexp, SpecFloat.emin, prec, emax in Hn; simpl Zdigits2 in Hn; lia).
      eapply Z.lt_le_trans; [apply HdM|]. apply Z.pow_le_mono_r; lia.
    - rewrite Z.max_r by lia.
      assert (Hd : Zpos (digits2_pos M) - n1 <= 53)
        by (unfold n1, fexp, SpecFloat.emin, prec, emax; simpl Zdigits2; lia).
      apply Z.div_lt_upper_bound; [lia|].
      eapply Z.lt_le_trans; [apply HdM|].
      rewrite <- Z.pow_add_r by lia. apply Z.pow_le_mono_r; lia. }
  (* so the second shift is by one place at most, and then of 2^53 *)
  assert (He1 : SpecFloat.emin prec emax <= e1).
  { unfold e1, n1, fexp, SpecFloat.emin, prec, emax. lia. }
  assert (Hexact2 : shr_m mrs2 * 2 ^ Z.max 0 n2 = m1').
  { rewrite Hm2. destruct (Z.le_gt_cases n2 0) as [Hn|Hn].
    - rewrite Z.max_l, Z.div_1_r by lia. simpl. lia.
    - assert (Hdig : 53 < Zdigits2 m1') by (unfold e1, n2, fexp, SpecFloat.emin, prec, emax in *; lia).
      assert (Hpos : 0 < m1') by (destruct m1'; simpl in Hdig; lia).
      pose proof (Zdigits2_bounds m1' Hpos) as Hb.
      assert (H53 : 2 ^ 53 <= m1').
      { eapply Z.le_trans; [|apply Hb]. apply Z.pow_le_mono_r; lia. }
      assert (Heq : m1' = 2 ^ 53) by lia.
      assert (Hd54 : Zdigits2 m1' = 54) by (rewrite Heq; reflexivity).
      assert (Hn2 : n2 = 1) by (unfold e1, n2, fexp, SpecFloat.emin, prec, emax in *; lia).
      rewrite Hn2, Heq. reflexivity. }
  split; [reflexivity|].
  split; [lia|]. split; [lia|].
  split. { rewrite Hm2. apply Z.div_pos; [lia|]. apply Z.pow_pos_nonneg; lia. }
  split; [done|].
  split. { intros Hk. apply Hexact1. lia. }
  split; [|done].
  intros Hk. unfold n1 in *. simpl Zdigits2 in *. lia.
Qed.



Lemma inject_Z_mul_le (x y : Z) (u : Q) :
  (0 <= u)%Q -> x <= y -> (inject_Z x * u <= inject_Z y * u)%Q.
Proof.
  intros Hu Hxy. apply Qmult_le_compat_r; [|done]. by rewrite <- Zle_Qle.
Qed.

Lemma F2Q_shift m k e :
  0 <= k -> (F2Q (m * 2 ^ k) e == F2Q m (e + k))%Q.
Proof.
  intros Hk. unfold F2Q. rewrite inject_Z_mult, pow2_add, <- (pow2_Z k) by done.
  ring.
Qed.

Lemma F2Q_le m m' e : m <= m' -> (F2Q m e <= F2Q m' e)%Q.
Proof. intros H. apply inject_Z_mul_le; [|done]. apply Qlt_le_weak, pow2_pos. Qed.

Lemma F2Q_succ m e : (F2Q (m + 1) e == F2Q m e + pow2 e)%Q.
Proof. unfold F2Q. rewrite inject_Z_plus. ring. Qed.

(** One unit in the last place of the rounded number is at most a
    [2^-52]th of the number, or the least positive number. *)
Lemma ulp_bound (M : positive) (E : Z) :
  (pow2 (fexp prec emax (Zpos (digits2_pos M) + E)) <= F2Q (Zpos M) E * eps + tiny)%Q.
Proof.
  pose proof (digits2_bounds M) as [Hd _].
  set (d := Zpos (digits2_pos M)) in *.
  assert (H1 : (pow2 (d + E - 53) <= F2Q (Zpos M) E * eps)%Q).
  { replace (d + E - 53) with ((d - 1) + (E + -52)) by lia.
    rewrite !pow2_add, (pow2_Z (d - 1)) by lia. unfold F2Q, eps.
    rewrite Qmult_assoc. apply Qmult_le_compat_r; [|apply Qlt_le_weak, pow2_pos].
    apply Qmult_le_compat_r; [|apply Qlt_le_weak, pow2_pos].
    by rewrite <- Zle_Qle. }
  pose proof (pow2_pos (d + E - 53)). pose proof (pow2_pos (-1074)).
  unfold fexp, SpecFloat.emin, prec, emax. change (3 - 1024 - 53) with (-1074).
  destruct (Z.max_spec (d + E - 53) (-1074)) as [[_ ->]|[_ ->]]; unfold tiny; lra.
Qed.

(** [binary_round_aux] on a positive integer mantissa: the relative error
    is at most [2^-52] but for an absolute [2^-1074]. *)
Lemma binary_round_aux_bounds (M : positive) (E : Z) :
  exists m e,
    binary_round_aux prec emax false (Zpos M) E loc_Exact = pack m e
    /\ 0 <= m
    /\ (F2Q (Zpos M) E * (1 - eps) - tiny <= F2Q m e)%Q
    /\ (F2Q m e <= F2Q (Zpos M) E * (1 + eps) + tiny)%Q.
Proof.
  destruct (binary_round_aux_shifts M E)
    as (k1 & m1' & k2 & m2 & Heq & Hk1 & Hk2 & Hm2 & Hm1' & Hex & Hfexp & Hm2').
  exists m2, (E + k1 + k2). split; [done|]. split; [done|].
  assert (Hval : (F2Q m2 (E + k1 + k2) == F2Q m1' (E + k1))%Q).
  { by rewrite <- F2Q_shift, Hm2'. }
  rewrite Hval.
  assert (Hexact : (0 < F2Q (Zpos M) E)%Q).
  { unfold F2Q. apply Qmult_lt_0_compat; [|apply pow2_pos]. reflexivity. }
  assert (Heps : (0 < eps)%Q) by apply pow2_pos.
  assert (Heps1 : (eps <= 1)%Q) by (by apply (pow2_le (-52) 0)).
  assert (Htiny : (0 < tiny)%Q) by apply pow2_pos.
  destruct (Z.eq_dec k1 0) as [->|Hne].
  - rewrite (Hex eq_refl), Z.add_0_r. nra.
  - set (q := Zpos M / 2 ^ k1) in *.
    assert (Hp : 0 < 2 ^ k1) by (apply Z.pow_pos_nonneg; lia).
    assert (Hlo : (F2Q q (E + k1) <= F2Q (Zpos M) E)%Q).
    { rewrite <- F2Q_shift by done. apply F2Q_le.
      pose proof (Z.mul_div_le (Zpos M) (2 ^ k1) Hp). unfold q. lia. }
    assert (Hhi : (F2Q (Zpos M) E <= F2Q q (E + k1) + pow2 (E + k1))%Q).
    { rewrite <- F2Q_succ, <- F2Q_shift by done. apply F2Q_le.
      pose proof (Z.mul_succ_div_gt (Zpos M) (2 ^ k1) Hp). unfold q. lia. }
    assert (Hv1 : (F2Q q (E + k1) <= F2Q m1' (E + k1))%Q) by (apply F2Q_le; lia).
    assert (Hv2 : (F2Q m1' (E + k1) <= F2Q q (E + k1) + pow2 (E + k1))%Q).
    { rewrite <- F2Q_succ. apply F2Q_le; lia. }
    pose proof (ulp_bound M E) as Hu. rewrite <- (Hfexp ltac:(lia)) in Hu.
    nra.
Qed.


(** *** Canonical numbers and their order *)

Lemma valid_finite s m e :
  valid_binary (S754_finite s m e) = true ->
  -1074 <= e <= 971 /\ Zpos m < 2 ^ 53 /\ (-1074 < e -> 2 ^ 52 <= Zpos m).
Proof.
  unfold valid_binary, bounded, canonical_mantissa, fexp, SpecFloat.emin, prec, emax.
  intros [Hc He]%andb_prop. apply Z.eqb_eq in Hc. apply Z.leb_le in He.
  pose proof (digits2_bounds m) as [Hlo Hhi].
  set (d := Zpos (digits2_pos m)) in *.
  split; [lia|]. split.
  - eapply Z.lt_le_trans; [apply Hhi|]. apply Z.pow_le_mono_r; lia.
  - intros Hn. replace 52 with (d - 1) by lia. done.
Qed.

Lemma F2Q_lt m m' e : m < m' -> (F2Q m e < F2Q m' e)%Q.
Proof.
  intros H. unfold F2Q. apply Qmult_lt_compat_r; [apply pow2_pos|].
  by rewrite <- Zlt_Qlt.
Qed.

Lemma F2Q_pow2 k e : 0 <= k -> (F2Q (2 ^ k) e == pow2 (e + k))%Q.
Proof.
  intros Hk. replace (2 ^ k) with (1 * 2 ^ k) by lia.
  rewrite F2Q_shift by done. unfold F2Q. ring.
Qed.

Lemma F2Q_exponent_lt m1 e1 m2 e2 :
  valid_binary (S754_finite false m1 e1) = true ->
  valid_binary (S754_finite false m2 e2) = true ->
  e1 < e2 -> (F2Q (Zpos m1) e1 < F2Q (Zpos m2) e2)%Q.
Proof.
  intros (He1 & Hm1 & _)%valid_finite (He2 & _ & Hm2)%valid_finite Hlt.
  apply (Qlt_le_trans _ (F2Q (2 ^ 53) e1)); [by apply F2Q_lt|].
  apply (Qle_trans _ (F2Q (2 ^ 52) e2)); [|apply F2Q_le, Hm2; lia].
  rewrite !F2Q_pow2 by lia. apply pow2_le. lia.
Qed.

Lemma SFcompare_finite m1 e1 m2 e2 :
  valid_binary (S754_finite false m1 e1) = true ->
  valid_binary (S754_finite false m2 e2) = true ->
  SFcompare (S754_finite false m1 e1) (S754_finite false m2 e2)
  = Some (F2Q (Zpos m1) e1 ?= F2Q (Zpos m2) e2)%Q.
Proof.
  intros H1 H2. simpl. f_equal. destruct (Z.compare_spec e1 e2) as [->|Hlt|Hgt].
  - rewrite Pos.compare_cont_spec. simpl.
    destruct (Pos.compare_spec m1 m2) as [->|Hm|Hm]; symmetry.
    + by apply Qeq_alt.
    + apply Qlt_alt, F2Q_lt. lia.
    + apply Qgt_alt, F2Q_lt. lia.
  - symmetry. by apply Qlt_alt, F2Q_exponent_lt.
  - symmetry. by apply Qgt_alt, F2Q_exponent_lt.
Qed.

Lemma SFleb_finite m1 e1 m2 e2 :
  valid_binary (S754_finite false m1 e1) = true ->
  valid_binary (S754_finite false m2 e2) = true ->
  SFleb (S754_finite false m1 e1) (S754_finite false m2 e2) = true
  <-> (F2Q (Zpos m1) e1 <= F2Q (Zpos m2) e2)%Q.
Proof.
  intros H1 H2. unfold SFleb. rewrite SFcompare_finite by done.
  rewrite Qle_alt. by destruct (_ ?= _)%Q.
Qed.

Lemma SFltb_finite m1 e1 m2 e2 :
  valid_binary (S754_finite false m1 e1) = true ->
  valid_binary (S754_finite false m2 e2) = true ->
  SFltb (S754_finite false m1 e1) (S754_finite false m2 e2) = true
  <-> (F2Q (Zpos m1) e1 < F2Q (Zpos m2) e2)%Q.
Proof.
  intros H1 H2. unfold SFltb. rewrite SFcompare_finite by done.
  rewrite Qlt_alt. by destruct (_ ?= _)%Q.
Qed.


(** *** The operations on positive finite numbers *)


Lemma rounds_to_ext x y r : (x == y)%Q -> rounds_to x r -> rounds_to y r.
Proof.
  intros Hxy (m & e & -> & Hm & Hlo & Hhi). exists m, e.
  rewrite <- Hxy. done.
Qed.

Lemma iter_xO m d : Zpos (Pos.iter xO m d) = Zpos m * 2 ^ Zpos d.
Proof.
  induction d as [|d IH] using Pos.peano_ind; [simpl; lia|].
  rewrite Pos.iter_succ, Pos2Z.inj_xO, IH, Pos2Z.inj_succ, Z.pow_succ_r by lia.
  lia.
Qed.

Lemma shl_align_spec m e e0 :
  (F2Q (Zpos (shl_align m e e0).1) (shl_align m e e0).2 == F2Q (Zpos m) e)%Q
  /\ (e0 <= e -> (shl_align m e e0).2 = e0).
Proof.
  unfold shl_align. destruct (e0 - e) as [|d|d] eqn:Hd; simpl.
  - split; [reflexivity|lia].
  - split; [reflexivity|lia].
  - split; [|done]. rewrite iter_xO, F2Q_shift by lia.
    replace (e0 + Zpos d) with e by lia. reflexivity.
Qed.

Lemma binary_round_bounds (S : positive) (e : Z) :
  rounds_to (F2Q (Zpos S) e) (binary_round prec emax false S e).
Proof.
  unfold binary_round.
  pose proof (shl_align_spec S e (fexp prec emax (Zpos (digits2_pos S) + e))) as [Hv _].
  destruct (shl_align S e _) as [mz ez]. simpl in Hv.
  eapply rounds_to_ext; [apply Hv|]. apply binary_round_aux_bounds.
Qed.

Lemma binary_normalize_bounds (S e : Z) :
  0 < S -> rounds_to (F2Q S e) (binary_normalize prec emax S e false).
Proof.
  destruct S as [|p|p]; [lia| |lia]. intros _. apply binary_round_bounds.
Qed.

Lemma SF64mul_bounds m1 e1 m2 e2 :
  rounds_to (F2Q (Zpos m1) e1 * F2Q (Zpos m2) e2)
            (SF64mul (S754_finite false m1 e1) (S754_finite false m2 e2)).
Proof.
  eapply rounds_to_ext; [|apply (binary_round_aux_bounds (m1 * m2) (e1 + e2))].
  unfold F2Q. rewrite Pos2Z.inj_mul, inject_Z_mult, pow2_add. ring.
Qed.

(** Both mantissas brought to the smaller exponent. *)
Lemma aligned m1 e1 m2 e2 :
  let ez := Z.min e1 e2 in
  (F2Q (Zpos (shl_align m1 e1 ez).1) ez == F2Q (Zpos m1) e1)%Q
  /\ (F2Q (Zpos (shl_align m2 e2 ez).1) ez == F2Q (Zpos m2) e2)%Q.
Proof.
  intros ez.
  destruct (shl_align_spec m1 e1 ez) as [H1 H1e].
  destruct (shl_align_spec m2 e2 ez) as [H2 H2e].
  rewrite H1e in H1 by (unfold ez; lia). rewrite H2e in H2 by (unfold ez; lia).
  done.
Qed.

Lemma SF64add_bounds m1 e1 m2 e2 :
  rounds_to (F2Q (Zpos m1) e1 + F2Q (Zpos m2) e2)
            (SF64add (S754_finite false m1 e1) (S754_finite false m2 e2)).
Proof.
  unfold SF64add, SFadd. simpl cond_Zopp.
  destruct (aligned m1 e1 m2 e2) as [H1 H2].
  eapply rounds_to_ext; [|apply binary_normalize_bounds; lia].
  rewrite <- H1, <- H2. unfold F2Q. rewrite inject_Z_plus. ring.
Qed.

Lemma SF64sub_bounds m1 e1 m2 e2 :
  (F2Q (Zpos m2) e2 < F2Q (Zpos m1) e1)%Q ->
  rounds_to (F2Q (Zpos m1) e1 - F2Q (Zpos m2) e2)
            (SF64sub (S754_finite false m1 e1) (S754_finite false m2 e2)).
Proof.
  intros Hlt. unfold SF64sub, SFsub. simpl cond_Zopp.
  destruct (aligned m1 e1 m2 e2) as [H1 H2].
  set (a := (shl_align m1 e1 (Z.min e1 e2)).1) in *.
  set (b := (shl_align m2 e2 (Z.min e1 e2)).1) in *.
  assert (Hab : Zpos b < Zpos a).
  { rewrite <- H1, <- H2 in Hlt. unfold F2Q in Hlt.
    apply Qmult_lt_r in Hlt; [|apply pow2_pos]. by rewrite <- Zlt_Qlt in Hlt. }
  eapply rounds_to_ext; [|apply binary_normalize_bounds; lia].
  rewrite <- H1, <- H2. unfold F2Q, Z.sub. rewrite inject_Z_plus, inject_Z_opp. ring.
Qed.

End Binary64Facts.

(** ** The AQI conversion *)

Module AQIFacts.
Import AQI Binary64 Binary64Facts.

#[local] Set Warnings "-inexact-float".

(** Closed comparisons of rationals, by evaluation. *)
Ltac closedQ :=
  first [ unfold Qlt; vm_compute; reflexivity
        | unfold Qle; vm_compute; discriminate
        | unfold Qeq; vm_compute; reflexivity ].

Lemma eps_small : (0 < eps /\ eps <= 1 # 1000000)%Q.
Proof. split; closedQ. Qed.

Lemma tiny_small : (0 < tiny /\ tiny <= 1 # 1000000)%Q.
Proof. split; closedQ. Qed.

(** *** [Math.round] *)

Example Math_round_examples :
  map Math_round [2.5; -2.5; 3.49; 0.49999999999999994; -0.2; 1e300]%float
  = [3; -2; 3; 0; -0; 1e300]%float.
Proof. vm_compute. reflexivity. Qed.


Lemma round_half_up_bounds (p : positive) (e : Z) :
  e < 0 ->
  let n := (Zpos p + 2 ^ (- e - 1)) / 2 ^ (- e) in
  (inject_Z n <= F2Q (Zpos p) e + (1 # 2))%Q
  /\ (F2Q (Zpos p) e + (1 # 2) < inject_Z n + 1)%Q.
Proof.
  intros He n.
  assert (HD : 0 < 2 ^ (- e)) by (apply Z.pow_pos_nonneg; lia).
  pose proof (Z.mul_div_le (Zpos p + 2 ^ (- e - 1)) _ HD) as Hlo.
  pose proof (Z.mul_succ_div_gt (Zpos p + 2 ^ (- e - 1)) _ HD) as Hhi.
  fold n in Hlo, Hhi.
  assert (Hn : forall k, (F2Q (k * 2 ^ (- e)) e == inject_Z k)%Q).
  { intros k. rewrite F2Q_shift by lia. replace (e + - e) with 0 by lia.
    unfold F2Q. change (pow2 0) with 1%Q. ring. }
  assert (Hh : (F2Q (Zpos p + 2 ^ (- e - 1)) e == F2Q (Zpos p) e + (1 # 2))%Q).
  { unfold F2Q at 1. rewrite inject_Z_plus, Qmult_plus_distr_l.
    fold (F2Q (Zpos p) e). fold (F2Q (2 ^ (- e - 1)) e).
    rewrite (F2Q_pow2 (- e - 1) e) by lia. replace (e + (- e - 1)) with (-1) by lia.
    reflexivity. }
  rewrite <- Hh. split.
  - rewrite <- (Hn n). apply F2Q_le. lia.
  - change (inject_Z n + 1)%Q with (inject_Z n + inject_Z 1)%Q.
    rewrite <- inject_Z_plus, <- (Hn (n + 1)). apply F2Q_lt. lia.
Qed.



Lemma F2Q_ge_pow2 p e : (pow2 e <= F2Q (Zpos p) e)%Q.
Proof.
  apply (Qle_trans _ (F2Q 1 e)); [unfold F2Q; change (inject_Z 1) with 1%Q; lra|]. apply F2Q_le. lia.
Qed.

Lemma rounds_to_at_most x q r :
  rounds_to x r -> (x * (1 + eps) + tiny <= q)%Q -> (q <= 1000000)%Q ->
  at_most q r.
Proof.
  intros (m & e & -> & Hm & _ & Hhi) Hq Hbig. unfold pack.
  destruct m as [|p|p]; [left; eauto| |lia].
  destruct (Z.leb_spec e (emax - prec)) as [He|He].
  - right. exists p, e. split; [done|lra].
  - exfalso. pose proof (F2Q_ge_pow2 p e) as Hp.
    pose proof (pow2_le 972 e ltac:(unfold emax, prec in He; lia)) as Hp'.
    assert (1000000 < pow2 972)%Q by closedQ. lra.
Qed.

Lemma rounds_to_at_least x q r :
  rounds_to x r -> (0 < q)%Q -> (q <= x * (1 - eps) - tiny)%Q ->
  at_least q r.
Proof.
  intros (m & e & -> & Hm & Hlo & _) Hq Hx. unfold pack.
  destruct m as [|p|p]; [|  |lia].
  - exfalso. unfold F2Q in Hlo. change (inject_Z 0) with 0%Q in Hlo. lra.
  - destruct (_ <=? _); [|by left]. right. exists p, e. split; [done|lra].
Qed.

Lemma Prim2SF_of_Z (n : Z) :
  0 < n < 2 ^ 62 -> rounds_to (inject_Z n) (Prim2SF (of_Z n)).
Proof.
  intros Hn. destruct n as [|p|p]; [lia| |lia]. unfold of_Z.
  rewrite of_uint63_spec, Uint63.of_Z_spec, Z.mod_small.
  - eapply rounds_to_ext; [|apply binary_normalize_bounds; lia].
    unfold F2Q. change (pow2 0) with 1%Q. ring.
  - split; [lia|]. eapply Z.lt_trans; [apply Hn|]. reflexivity.
Qed.

Lemma of_Z_le_50 (n : Z) : 0 < n <= 50 -> (of_Z n <=? 50)%float = true.
Proof.
  intros Hn. destruct n as [|p|p]; [lia| |lia].
  do 6 (try destruct p as [p|p|]); try lia; vm_compute; reflexivity.
Qed.

Lemma Math_round_le_50 (x : float) :
  at_most (201 # 4) (Prim2SF x) -> (Math_round x <=? 50)%float = true.
Proof.
  intros [[s Hs]|(p & e & Hx & Hq)].
  - unfold Math_round. rewrite Hs, leb_spec, Hs. by destruct s.
  - pose proof (Prim2SF_valid x) as Hv. rewrite Hx in Hv.
    apply valid_finite in Hv as (He & Hp & Hnorm).
    unfold Math_round. rewrite Hx.
    destruct (Z.leb_spec 0 e) as [He0|He0].
    + exfalso. pose proof (F2Q_le _ _ e (Hnorm ltac:(lia))) as H52.
      rewrite F2Q_pow2 in H52 by lia.
      pose proof (pow2_le 52 (e + 52) ltac:(lia)).
      assert (51 < pow2 52)%Q by closedQ. lra.
    + cbv zeta. simpl cond_Zopp.
      pose proof (round_half_up_bounds p e He0) as [Hlo _]. cbv zeta in Hlo.
      set (n := (Zpos p + 2 ^ (- e - 1)) / 2 ^ (- e)) in *.
      assert (Hn50 : n <= 50).
      { assert (inject_Z n < inject_Z 51)%Q
          by (change (inject_Z 51) with 51%Q; lra).
        rewrite <- Zlt_Qlt in H. lia. }
      assert (Hn0 : 0 <= n).
      { apply Z.div_pos; [|apply Z.pow_pos_nonneg; lia].
        pose proof (Z.pow_nonneg 2 (- e - 1)). lia. }
      destruct (Z.eqb_spec n 0); [reflexivity|]. apply of_Z_le_50. lia.
Qed.


Local Open Scope float_scope.

(** What the comparisons with a positive finite constant say. *)
Lemma between_0_and (c k : float) (mk : positive) (ek : Z) :
  Prim2SF k = S754_finite false mk ek ->
  (0 <=? c) = true -> (c <=? k) = true ->
  at_most (F2Q (Zpos mk) ek) (Prim2SF c).
Proof.
  intros Hk H0 Hle. rewrite leb_spec in H0, Hle.
  change (Prim2SF 0) with (S754_zero false) in H0.
  pose proof (Prim2SF_valid c) as Hv. pose proof (Prim2SF_valid k) as Hvk.
  rewrite Hk in Hle, Hvk.
  destruct (Prim2SF c) as [s|s| |s m e]; try done.
  - left. eauto.
  - by destruct s.
  - destruct s; [done|]. right. exists m, e. split; [done|].
    by apply SFleb_finite.
Qed.

Lemma first_band_le_50 (c : float) :
  (0 <=? c) = true -> (c <=? 12.0) = true ->
  (Math_round ((50 / 12.0) * c) <=? 50) = true.
Proof.
  intros H0 H12. apply Math_round_le_50.
  pose proof (between_0_and c 12.0 6755399441055744 (-49) eq_refl H0 H12) as Hc.
  rewrite mul_spec.
  change (Prim2SF (50 / 12.0)) with (S754_finite false 4691249611844267 (-50)).
  destruct Hc as [[s ->]|(m & e & -> & Hq)]; [left; eauto|].
  pose proof (SF64mul_bounds 4691249611844267 (-50) m e) as Hr.
  assert (HK : (F2Q 4691249611844267 (-50) <= 4167 # 1000)%Q) by closedQ.
  assert (HK0 : (0 < F2Q 4691249611844267 (-50))%Q) by closedQ.
  assert (H12q : (F2Q 6755399441055744 (-49) == 12)%Q) by closedQ.
  assert (Hpos : (0 < F2Q (Zpos m) e)%Q).
  { unfold F2Q. apply Qmult_lt_0_compat; [reflexivity|apply pow2_pos]. }
  pose proof eps_small. pose proof tiny_small.
  eapply rounds_to_at_most; [apply Hr| |closedQ].
  rewrite H12q in Hq.
  set (a := F2Q 4691249611844267 (-50)) in *. set (b := F2Q (Zpos m) e) in *.
  assert (Hab : (a * b <= 50004 # 1000)%Q) by nra.
  assert (Hab0 : (0 < a * b)%Q) by nra.
  set (x := (a * b)%Q) in *. nra.
Qed.

(** C3.  For a concentration between 0 and 12.0 the index is the rounded
    product [Math.round((50 / 12.0) * c)], and it is at most 50. *)
Theorem first_band (c : float) :
  (0 <=? c) = true -> (c <=? 12.0) = true ->
  calculateAQI c = Math_round ((50 / 12.0) * c)
  /\ (calculateAQI c <=? 50) = true.
Proof.
  intros H0 H12. unfold calculateAQI. rewrite H12. split; [done|].
  by apply first_band_le_50.
Qed.

(** The first band is the category "Good". *)
Lemma first_band_good (c : float) :
  (0 <=? c) = true -> (c <=? 12.0) = true ->
  getAQICategory (calculateAQI c) = mkCategory "Good" "bg-green-500".
Proof.
  intros H0 H12. unfold getAQICategory, calculateAQI.
  by rewrite H12, first_band_le_50.
Qed.


Lemma above (c k : float) (mk : positive) (ek : Z) :
  Prim2SF k = S754_finite false mk ek ->
  (k <? c) = true \/ (k <=? c) = true ->
  at_least (F2Q (Zpos mk) ek) (Prim2SF c).
Proof.
  intros Hk Hlt. rewrite ltb_spec, leb_spec in Hlt.
  pose proof (Prim2SF_valid c) as Hv. pose proof (Prim2SF_valid k) as Hvk.
  rewrite Hk in Hlt, Hvk.
  destruct (Prim2SF c) as [s|s| |s m e].
  - by destruct Hlt.
  - destruct s; [by destruct Hlt|by left].
  - by destruct Hlt.
  - destruct s; [by destruct Hlt|]. right. exists m, e. split; [done|].
    destruct Hlt as [Hlt|Hle].
    + apply Qlt_le_weak. by apply SFltb_finite.
    + by apply SFleb_finite.
Qed.

Lemma leb_false (c k : float) (q : Q) (mk : positive) (ek : Z) :
  Prim2SF k = S754_finite false mk ek ->
  at_least q (Prim2SF c) -> (F2Q (Zpos mk) ek < q)%Q ->
  (c <=? k) = false.
Proof.
  intros Hk Hc Hq. rewrite leb_spec, Hk.
  pose proof (Prim2SF_valid c) as Hv. pose proof (Prim2SF_valid k) as Hvk.
  rewrite Hk in Hvk.
  destruct Hc as [->|(m & e & Hc & Hm)]; [done|]. rewrite Hc in Hv |- *.
  apply not_true_is_false. intros Hle%SFleb_finite; [lra|done..].
Qed.

Lemma sub_at_least (x k : float) (mk : positive) (ek : Z) (q q' : Q) :
  Prim2SF k = S754_finite false mk ek ->
  at_least q (Prim2SF x) -> (F2Q (Zpos mk) ek < q)%Q ->
  (0 < q')%Q -> (q' <= (q - F2Q (Zpos mk) ek) * (1 - eps) - tiny)%Q ->
  at_least q' (Prim2SF (x - k)).
Proof.
  intros Hk Hx Hkq Hq' Hle. rewrite sub_spec, Hk.
  destruct Hx as [->|(m & e & -> & Hm)]; [by left|].
  pose proof eps_small.
  eapply rounds_to_at_least; [apply (SF64sub_bounds m e mk ek); lra|done|].
  nra.
Qed.

Lemma mul_at_least (k x : float) (mk : positive) (ek : Z) (q q' : Q) :
  Prim2SF k = S754_finite false mk ek ->
  at_least q (Prim2SF x) -> (0 < q)%Q ->
  (0 < q')%Q -> (q' <= F2Q (Zpos mk) ek * q * (1 - eps) - tiny)%Q ->
  at_least q' (Prim2SF (k * x)).
Proof.
  intros Hk Hx Hq Hq' Hle. rewrite mul_spec, Hk.
  destruct Hx as [->|(m & e & -> & Hm)]; [by left|].
  pose proof eps_small.
  assert (Hkpos : (0 < F2Q (Zpos mk) ek)%Q).
  { unfold F2Q. apply Qmult_lt_0_compat; [reflexivity|apply pow2_pos]. }
  eapply rounds_to_at_least; [apply (SF64mul_bounds mk ek m e)|done|].
  assert (F2Q (Zpos mk) ek * q <= F2Q (Zpos mk) ek * F2Q (Zpos m) e)%Q by nra.
  nra.
Qed.

Lemma add_at_least (x k : float) (mk : positive) (ek : Z) (q q' : Q) :
  Prim2SF k = S754_finite false mk ek ->
  at_least q (Prim2SF x) ->
  (0 < q')%Q -> (q' <= (q + F2Q (Zpos mk) ek) * (1 - eps) - tiny)%Q ->
  at_least q' (Prim2SF (x + k)).
Proof.
  intros Hk Hx Hq' Hle. rewrite add_spec, Hk.
  destruct Hx as [->|(m & e & -> & Hm)]; [by left|].
  pose proof eps_small.
  eapply rounds_to_at_least; [apply (SF64add_bounds m e mk ek)|done|].
  nra.
Qed.

Lemma ltb_200 (x : float) :
  at_least (2001 # 10) (Prim2SF x) -> (200 <? x) = true.
Proof.
  intros Hx. rewrite ltb_spec.
  change (Prim2SF 200) with (S754_finite false 7036874417766400 (-45)).
  pose proof (Prim2SF_valid x) as Hv.
  destruct Hx as [->|(m & e & Hx & Hm)]; [done|]. rewrite Hx in Hv |- *.
  apply SFltb_finite; [done..|].
  assert (F2Q 7036874417766400 (-45) == 200)%Q by closedQ. lra.
Qed.

Lemma Math_round_gt_200 (x : float) :
  at_least (401 # 2) (Prim2SF x) -> (200 <? Math_round x) = true.
Proof.
  intros Hx. pose proof Hx as [Hinf|(p & e & Hp & Hq)].
  - unfold Math_round. rewrite Hinf. apply ltb_200. rewrite Hinf. by left.
  - pose proof (Prim2SF_valid x) as Hv. rewrite Hp in Hv.
    apply valid_finite in Hv as (He & Hp53 & _).
    unfold Math_round. rewrite Hp.
    destruct (Z.leb_spec 0 e) as [He0|He0].
    + apply ltb_200. rewrite Hp. right. exists p, e. split; [done|lra].
    + cbv zeta. simpl cond_Zopp.
      pose proof (round_half_up_bounds p e He0) as [Hlo Hhi]. cbv zeta in Hlo, Hhi.
      set (n := ((Zpos p + 2 ^ (- e - 1)) / 2 ^ (- e))%Z) in *.
      assert (Hn : (201 <= n)%Z).
      { assert (inject_Z 200 < inject_Z n)%Q
          by (change (inject_Z 200) with 200%Q; lra).
        rewrite <- Zlt_Qlt in H. lia. }
      assert (Hn62 : (n < 2 ^ 62)%Z).
      { assert (Hle : (F2Q (Zpos p) e <= F2Q (Zpos p) 0)%Q).
        { unfold F2Q. apply Qmult_le_l; [reflexivity|]. apply pow2_le. lia. }
        assert (Hp' : (F2Q (Zpos p) 0 < inject_Z (2 ^ 53)%Z)%Q).
        { unfold F2Q. change (pow2 0) with 1%Q. rewrite Qmult_1_r.
          by rewrite <- Zlt_Qlt. }
        assert (inject_Z n < inject_Z (2 ^ 53 + 1)%Z)%Q.
        { rewrite inject_Z_plus. change (inject_Z 1) with 1%Q. lra. }
        rewrite <- Zlt_Qlt in H. lia. }
      destruct (Z.eqb_spec n 0); [lia|]. apply ltb_200.
      pose proof eps_small. pose proof tiny_small.
      assert (Hn' : (201 <= inject_Z n)%Q).
      { change 201%Q with (inject_Z 201). by rewrite <- Zle_Qle. }
      eapply rounds_to_at_least; [apply Prim2SF_of_Z; lia|reflexivity|].
      nra.
Qed.

(** C4.  Above 150.4 the index is the last band's formula, rounded; there
    is no upper clamp, and from 152 on the index is above 200. *)
Theorem last_band_unclamped (c : float) :
  (150.4 <? c) = true ->
  calculateAQI c
  = Math_round (((200 - 151) / (150.4 - 55.5)) * (c - 55.5) + 151)
  /\ ((152 <=? c) = true -> (200 <? calculateAQI c) = true).
Proof.
  intros H150.
  pose proof (above c 150.4 5291729562160333 (-45) eq_refl (or_introl H150)) as Hc.
  assert (H150q : (150 <= F2Q 5291729562160333 (-45))%Q) by closedQ.
  assert (Hbranch :
    calculateAQI c
    = Math_round (((200 - 151) / (150.4 - 55.5)) * (c - 55.5) + 151)).
  { unfold calculateAQI.
    rewrite (leb_false c 12.0 _ 6755399441055744 (-49) eq_refl Hc) by closedQ.
    rewrite (leb_false c 35.4 _ 4982107087778611 (-47) eq_refl Hc) by closedQ.
    rewrite (leb_false c 55.4 _ 7796856854885171 (-47) eq_refl Hc) by closedQ.
    done. }
  split; [done|]. intros H152. rewrite Hbranch. clear Hbranch Hc H150 H150q.
  apply Math_round_gt_200.
  pose proof (above c 152 5348024557502464 (-45) eq_refl (or_intror H152)) as Hc.
  pose proof eps_small. pose proof tiny_small.
  assert (H152q : (F2Q 5348024557502464 (-45) == 152)%Q) by closedQ.
  assert (H555 : (F2Q 7810930603720704 (-47) == 111 # 2)%Q) by closedQ.
  assert (HK : (5163 # 10000 <= F2Q 4650714051446877 (-53))%Q) by closedQ.
  assert (H151 : (F2Q 5312840185413632 (-45) == 151)%Q) by closedQ.
  assert (Hc' : at_least 152 (Prim2SF c)).
  { destruct Hc as [->|(m & e & -> & Hm)]; [by left|]. right. exists m, e.
    split; [done|lra]. }
  eapply (add_at_least _ 151 5312840185413632 (-45) (497 # 10));
    [reflexivity| |reflexivity|nra].
  eapply (mul_at_least _ _ 4650714051446877 (-53) (964 # 10));
    [reflexivity| |reflexivity|reflexivity|nra].
  eapply (sub_at_least _ 55.5 7810930603720704 (-47) 152);
    [reflexivity|done|lra|reflexivity|nra].
Qed.

(** C4 at a concentration of 500. *)
Lemma last_band_unclamped_instance :
  calculateAQI 500
  = Math_round (((200 - 151) / (150.4 - 55.5)) * (500 - 55.5) + 151)
  /\ ((152 <=? 500) = true -> (200 <? calculateAQI 500) = true).
Proof. apply (last_band_unclamped 500). reflexivity. Defined.

(** C3 at a concentration of 7.5. *)
Lemma first_band_instance :
  calculateAQI 7.5 = Math_round ((50 / 12.0) * 7.5)
  /\ (calculateAQI 7.5 <=? 50) = true.
Proof. apply (first_band 7.5); reflexivity. Defined.

(** C2.  At the six breakpoint concentrations the index is the end of the
    band below or the start of the band above. *)
Theorem breakpoints :
  calculateAQI 12.0 = 50
  /\ calculateAQI 12.1 = 51
  /\ calculateAQI 35.4 = 100
  /\ calculateAQI 35.5 = 101
  /\ calculateAQI 55.4 = 150
  /\ calculateAQI 55.5 = 151.
Proof. repeat split; vm_compute; reflexivity. Qed.

(** The category at a concentration of 7.5. *)
Lemma first_band_good_instance :
  getAQICategory (calculateAQI 7.5) = mkCategory "Good" "bg-green-500".
Proof. apply (first_band_good 7.5); reflexivity. Defined.

End AQIFacts.

(** * Further properties of the route *)

(** ** Bursts across two windows *)

Section Burst.

Implicit Types (m : gmap string RateLimitEntry.t) (ip : string).

Lemma allowed_in_late ip a calls : forall m,
  Forall (fun c => a + RATE_LIMIT_WINDOW < c.2) calls ->
  allowed_in ip a calls m = 0%nat.
Proof.
  induction calls as [|[ip' now] calls IH]; intros m Hall; [done|].
  apply Forall_cons in Hall as [Hnow Hall]. simpl in *.
  destruct (checkRateLimit ip' now m) as [b m'].
  rewrite (IH m' Hall).
  destruct (decide (ip' = ip)); [|done].
  destruct (Z.leb_spec now (a + RATE_LIMIT_WINDOW)); [lia|].
  by rewrite andb_false_r.
Qed.

Lemma allowed_in_span ip a calls : forall m,
  clock_nondecreasing calls ->
  Forall (fun c => a <= c.2) calls ->
  (allowed_in ip a calls m <= span_budget (m !! ip) a)%nat.
Proof.
  induction calls as [|[ip' now] calls IH]; intros m Hs Ha; [simpl; lia|].
  destruct Hs as [Hlater Hs].
  apply Forall_cons in Ha as [Hnow Ha]. simpl in Hnow.
  simpl. destruct (checkRateLimit ip' now m) as [b m'] eqn:Hc.
  specialize (IH m' Hs Ha).
  destruct (decide (ip' = ip)) as [->|Hne].
  2:{ replace (m' !! ip) with (m !! ip) in IH; [done|].
      replace m' with (checkRateLimit ip' now m).2 by (by rewrite Hc).
      by rewrite checkRateLimit_other. }
  unfold checkRateLimit in Hc. unfold span_budget in *.
  destruct (m !! ip) as [[c ts]|] eqn:Hm; simpl in *.
  - destruct (Z.gtb_spec (now - ts) RATE_LIMIT_WINDOW) as [Hexp|Hin].
    + (* the window has passed: this call opens a new one *)
      inversion Hc; subst b m'; clear Hc.
      rewrite lookup_insert_eq in IH. simpl in IH.
      destruct (Z.leb_spec a ts) as [Hats|Hats].
      * (* opened inside the span: the new window begins after its end *)
        rewrite allowed_in_late.
        -- destruct (Z.leb_spec now (a + RATE_LIMIT_WINDOW)); [lia|].
           rewrite andb_false_r. lia.
        -- eapply Forall_impl; [apply Hlater|]. simpl. intros c' Hc'. lia.
      * destruct (Z.leb_spec a now); [|lia]. simpl in IH.
        destruct (_ && _ && _); unfold MAX_REQUESTS in *; lia.
    + destruct (Z.ltb_spec c MAX_REQUESTS) as [Hlt|Hge];
        inversion Hc; subst b m'; clear Hc.
      * rewrite lookup_insert_eq in IH. simpl in IH.
        destruct (_ && _ && _); unfold MAX_REQUESTS in *; lia.
      * rewrite Hm in IH. simpl in *. lia.
  - inversion Hc; subst b m'; clear Hc.
    rewrite lookup_insert_eq in IH. simpl in IH.
    destruct (Z.leb_spec a now); [|lia]. simpl in IH.
    destruct (_ && _ && _); unfold MAX_REQUESTS in *; lia.
Qed.

(** With a clock that does not run backwards, no client is ever allowed
    more than 19 requests whose clock readings lie within one span of 300
    seconds, wherever the span is placed; not 10, since the last nine of
    one window and the ten of the next can fall into it. *)
Theorem at_most_19_in_any_span ip (a : Z) (calls : list (string * Z)) m :
  clock_nondecreasing calls ->
  count_bounded m ->
  (allowed_in ip a calls m <= 19)%nat.
Proof.
  revert m. induction calls as [|[ip' now] calls IH]; intros m Hs Hb;
    [simpl; lia|].
  destruct (Z.le_gt_cases a now) as [Hin|Hbefore].
  - (* the clock has reached the span *)
    etrans; [apply allowed_in_span; [done|]|].
    + destruct Hs as [Hlater _]. constructor; [done|].
      eapply Forall_impl; [apply Hlater|]. simpl. intros c' Hc'. lia.
    + unfold span_budget. destruct (m !! ip) as [e|] eqn:He; [|lia].
      pose proof (Hb _ _ He). unfold MAX_REQUESTS in *.
      destruct (_ <=? _); lia.
  - simpl. destruct (checkRateLimit ip' now m) as [b m'] eqn:Hc.
    assert (Hb' : count_bounded m').
    { replace m' with (checkRateLimit ip' now m).2 by (by rewrite Hc).
      by apply checkRateLimit_count_bounded. }
    destruct Hs as [_ Hs].
    specialize (IH m' Hs Hb').
    destruct (Z.leb_spec a now); [lia|].
    rewrite andb_false_r. simpl. by destruct (decide _).
Qed.

(** The bound is reached. *)
Lemma burst_reaches_19 :
  clock_nondecreasing burst
  /\ allowed_in "203.0.113.7" 300000 burst ∅ = 19%nat.
Proof.
  split; [|reflexivity].
  unfold burst. simpl. repeat split; repeat constructor; simpl; lia.
Qed.

Lemma at_most_19_in_any_span_instance :
  (allowed_in "203.0.113.7" 300000 burst ∅ <= 19)%nat.
Proof.
  apply (at_most_19_in_any_span "203.0.113.7" 300000 burst ∅).
  - apply burst_reaches_19.
  - intros ip e. by rewrite lookup_empty.
Defined.

End Burst.

(** ** Identifiers and the table *)

Section Identifiers.

Variable apiKey : option string.

(** The rate check never removes a key: the table holds the caller's
    identifier and every identifier it held before.  So does the table
    after the synchronous stretch of a request, admitted or not. *)
Theorem rate_table_only_grows ip sid (t_rate t_cache : Z) (st : Server) :
  dom (checkRateLimit ip t_rate (rateLimit st)).2 = {[ip]} ∪ dom (rateLimit st)
  /\ dom (rateLimit (GET_enter apiKey ip sid t_rate t_cache st).2)
     = {[ip]} ∪ dom (rateLimit st).
Proof.
  rewrite GET_enter_rateLimit.
  assert (H : dom (checkRateLimit ip t_rate (rateLimit st)).2
              = {[ip]} ∪ dom (rateLimit st)); [|done].
  unfold checkRateLimit.
  destruct (rateLimit st !! ip) as [e|] eqn:He; simpl.
  - assert (ip ∈ dom (rateLimit st)) by (apply elem_of_dom; eauto).
    assert (Hsub : {[ip]} ∪ dom (rateLimit st) = dom (rateLimit st))
      by (apply subseteq_union_1_L, singleton_subseteq_l; done).
    destruct (_ >? _); [|destruct (_ <? _)]; simpl;
      by rewrite ?dom_insert_L, ?Hsub.
  - by rewrite dom_insert_L.
Qed.

(** Requests whose client identifiers are pairwise different and not yet
    in the table are all admitted: the limiter takes the identifier from
    the request header as it is, so a caller that changes the header with
    every request is never limited. *)
Theorem fresh_identifiers_never_limited (reqs : list Request) (st : Server) :
  NoDup (rate_calls reqs).*1 ->
  Forall (fun ip => rateLimit st !! ip = None) (rate_calls reqs).*1 ->
  Forall (fun x => status x.2 <> 429) (serve apiKey reqs st).
Proof.
  revert st. induction reqs as [|r reqs IH]; intros st Hnd Hfresh; [constructor|].
  simpl in *. apply NoDup_cons in Hnd as [Hnotin Hnd].
  apply Forall_cons in Hfresh as [Hr Hfresh].
  pose proof (handle_rateLimit apiKey r st) as Hrl.
  pose proof (handle_allowed apiKey r st) as Hok.
  rewrite checkRateLimit_opens in Hrl, Hok by (unfold opens_window; by rewrite Hr).
  destruct (handle apiKey r st) as [[resp calls] st']. simpl in *.
  constructor; [by apply Hok|]. apply IH; [done|].
  rewrite Hrl. apply Forall_forall. intros ip Hip.
  rewrite lookup_insert_ne by (intros Heq; by rewrite Heq in Hnotin).
  rewrite Forall_forall in Hfresh. by apply Hfresh.
Qed.

End Identifiers.

Lemma fresh_identifiers_never_limited_instance :
  let reqs :=
    map (fun i => mkRequest (fun _ => Some (String (Ascii.ascii_of_nat (65 + i)) ""))
                            "68657" 0 0 0 (fun _ => FetchRejected))
        (seq 0 12) in
  Forall (fun x => status x.2 <> 429) (serve None reqs initial).
Proof.
  intros reqs. apply (fresh_identifiers_never_limited None reqs initial).
  - apply (bool_decide_unpack _). vm_compute. exact I.
  - repeat constructor.
Defined.

(** ** Denied calls and the next window *)

Section AfterDenial.

Implicit Types (m : gmap string RateLimitEntry.t) (ip : string).

Lemma exhausted_window_stays ip calls : forall m e,
  m !! ip = Some e ->
  MAX_REQUESTS <= RateLimitEntry.count e ->
  Forall (fun t => t - RateLimitEntry.timestamp e <= RATE_LIMIT_WINDOW)
         (times_for ip calls) ->
  table_after calls m !! ip = Some e
  /\ Forall (fun allowed => allowed = false) (verdicts_for ip calls m).
Proof.
  induction calls as [|[ip' now] calls IH]; intros m e Hm Hc Hall; [done|].
  simpl in *. destruct (checkRateLimit ip' now m) as [b m'] eqn:Hck. simpl.
  destruct (decide (ip' = ip)) as [->|Hne].
  - apply Forall_cons in Hall as [Hnow Hall]. destruct e as [c ts].
    rewrite (checkRateLimit_within _ _ _ _ _ Hm Hnow) in Hck. simpl in *.
    destruct (Z.ltb_spec c MAX_REQUESTS); [lia|]. inversion Hck; subst b m'.
    destruct (IH m _ Hm Hc Hall) as [Ht Hv]. split; [done|by constructor].
  - apply (IH m' e); [|done..].
    replace m' with (checkRateLimit ip' now m).2 by (by rewrite Hck).
    by rewrite checkRateLimit_other.
Qed.

(** A client that has used up its window is denied for the rest of it,
    and the denied calls cost it nothing: its entry stays as it is, so the
    first call more than 300 seconds after the window's start is allowed
    and opens a new window, however many calls were denied before. *)
Theorem denied_calls_do_not_extend_the_window ip calls m e (now : Z) :
  m !! ip = Some e ->
  MAX_REQUESTS <= RateLimitEntry.count e ->
  Forall (fun t => t - RateLimitEntry.timestamp e <= RATE_LIMIT_WINDOW)
         (times_for ip calls) ->
  now - RateLimitEntry.timestamp e > RATE_LIMIT_WINDOW ->
  Forall (fun allowed => allowed = false) (verdicts_for ip calls m)
  /\ table_after calls m !! ip = Some e
  /\ checkRateLimit ip now (table_after calls m)
     = (true, <[ip := RateLimitEntry.mk 1 now]> (table_after calls m)).
Proof.
  intros Hm Hc Hall Hnow.
  destruct (exhausted_window_stays ip calls m e Hm Hc Hall) as [Ht Hv].
  split; [done|]. split; [done|].
  apply checkRateLimit_opens. unfold opens_window. by rewrite Ht.
Qed.

End AfterDenial.

Lemma denied_calls_do_not_extend_the_window_instance :
  let calls := [("203.0.113.7", 1000); ("198.51.100.9", 2000);
                ("203.0.113.7", 299999); ("203.0.113.7", 300000)] in
  let e := RateLimitEntry.mk 10 0 in
  Forall (fun allowed => allowed = false)
         (verdicts_for "203.0.113.7" calls (rateLimit exhausted))
  /\ table_after calls (rateLimit exhausted) !! "203.0.113.7" = Some e
  /\ checkRateLimit "203.0.113.7" 300001 (table_after calls (rateLimit exhausted))
     = (true, <["203.0.113.7" := RateLimitEntry.mk 1 300001]>
                (table_after calls (rateLimit exhausted))).
Proof.
  intros calls e.
  apply (denied_calls_do_not_extend_the_window "203.0.113.7" calls
           (rateLimit exhausted) e 300001).
  - reflexivity.
  - vm_compute. discriminate.
  - repeat constructor; vm_compute; discriminate.
  - reflexivity.
Defined.

(** ** The cache: stores, lookups and sweeps together *)

Section CacheComposition.

(** What is stored is what a lookup less than 30 minutes later returns, in
    both revisions, also when the timer's sweep ran in between no more
    than 30 minutes after the store; a lookup 30 minutes after the store
    or later returns [null]. *)
Theorem stored_then_looked_up (k : string) (d : json) (t t' : Z) (st : Server) :
  (t' - t < CACHE_DURATION ->
     (getCachedData k t' (cache (Route.setCachedData k d t st))).1 = d
     /\ (getCachedData k t' (cache (RouteTyped.setCachedData k d t st))).1 = d
     /\ forall s, s - t <= CACHE_DURATION ->
          (getCachedData k t'
             (cache (Route.cleanup s (Route.setCachedData k d t st)))).1 = d)
  /\ (CACHE_DURATION <= t' - t ->
       (getCachedData k t' (cache (Route.setCachedData k d t st))).1 = JNull
       /\ (getCachedData k t' (cache (RouteTyped.setCachedData k d t st))).1 = JNull).
Proof.
  split.
  - intros Hfresh.
    assert (Hget : forall c, c !! k = Some (CacheEntry.mk d t) ->
                             (getCachedData k t' c).1 = d).
    { intros c Hc. unfold getCachedData. rewrite Hc. simpl.
      by destruct (Z.ltb_spec (t' - t) CACHE_DURATION); [|lia]. }
    split; [apply Hget; simpl; apply lookup_insert_eq|].
    split; [apply Hget; simpl; apply lookup_insert_eq|].
    intros s Hs. apply Hget. simpl. rewrite sweepCache_lookup, lookup_insert_eq.
    simpl. by destruct (Z.gtb_spec (s - t) CACHE_DURATION); [lia|].
  - intros Hold.
    assert (Hget : forall c, c !! k = Some (CacheEntry.mk d t) ->
                             (getCachedData k t' c).1 = JNull).
    { intros c Hc. unfold getCachedData. rewrite Hc. simpl.
      by destruct (Z.ltb_spec (t' - t) CACHE_DURATION); [lia|]. }
    split; apply Hget; simpl; apply lookup_insert_eq.
Qed.

(** The sweep and the lookup do not draw the line at the same place: an
    entry the sweep at [now] removes is one a lookup at [now] reports
    absent, but an entry exactly 30 minutes old is kept by the sweep and
    evicted by the lookup. *)
Theorem sweep_keeps_what_lookup_evicts (k : string) (now : Z)
    (c : gmap string CacheEntry.t) (e : CacheEntry.t) :
  c !! k = Some e ->
  (sweepCache now c !! k = None -> getCachedData k now c = (JNull, delete k c))
  /\ (now - CacheEntry.timestamp e = CACHE_DURATION ->
      sweepCache now c !! k = Some e
      /\ getCachedData k now c = (JNull, delete k c)).
Proof.
  intros Hk. rewrite sweepCache_lookup, Hk. unfold getCachedData. rewrite Hk.
  split.
  - destruct (Z.gtb_spec (now - CacheEntry.timestamp e) CACHE_DURATION); [|done].
    intros _. by destruct (Z.ltb_spec (now - CacheEntry.timestamp e) CACHE_DURATION);
      [lia|].
  - intros Heq.
    destruct (Z.gtb_spec (now - CacheEntry.timestamp e) CACHE_DURATION); [lia|].
    by destruct (Z.ltb_spec (now - CacheEntry.timestamp e) CACHE_DURATION); [lia|].
Qed.

(** Sweeps compose: after a sweep, every entry left is within its window
    at the sweep's clock reading, and a sweep together with an earlier one,
    in either order, does what the later one does alone (so sweeping
    twice is sweeping once). *)
Theorem sweeps_compose (t1 t2 : Z) (st : Server) :
  t1 <= t2 ->
  Route.cleanup t2 (Route.cleanup t1 st) = Route.cleanup t2 st
  /\ Route.cleanup t1 (Route.cleanup t2 st) = Route.cleanup t2 st
  /\ (forall ip e, rateLimit (Route.cleanup t2 st) !! ip = Some e ->
        t2 - RateLimitEntry.timestamp e <= RATE_LIMIT_WINDOW)
  /\ (forall k e, cache (Route.cleanup t2 st) !! k = Some e ->
        t2 - CacheEntry.timestamp e <= CACHE_DURATION).
Proof.
  intros Hle. unfold Route.cleanup. simpl. repeat split.
  - f_equal; apply map_eq; intros i.
    + rewrite !sweepRateLimit_lookup. destruct (rateLimit st !! i) as [e|]; [|done].
      destruct (Z.gtb_spec (t1 - RateLimitEntry.timestamp e) RATE_LIMIT_WINDOW),
               (Z.gtb_spec (t2 - RateLimitEntry.timestamp e) RATE_LIMIT_WINDOW);
        try done; lia.
    + rewrite !sweepCache_lookup. destruct (cache st !! i) as [e|]; [|done].
      destruct (Z.gtb_spec (t1 - CacheEntry.timestamp e) CACHE_DURATION),
               (Z.gtb_spec (t2 - CacheEntry.timestamp e) CACHE_DURATION);
        try done; lia.
  - f_equal; apply map_eq; intros i.
    + rewrite !sweepRateLimit_lookup. destruct (rateLimit st !! i) as [e|]; [|done].
      destruct (Z.gtb_spec (t2 - RateLimitEntry.timestamp e) RATE_LIMIT_WINDOW);
        [done|].
      by destruct (Z.gtb_spec (t1 - RateLimitEntry.timestamp e) RATE_LIMIT_WINDOW);
        [lia|].
    + rewrite !sweepCache_lookup. destruct (cache st !! i) as [e|]; [|done].
      destruct (Z.gtb_spec (t2 - CacheEntry.timestamp e) CACHE_DURATION); [done|].
      by destruct (Z.gtb_spec (t1 - CacheEntry.timestamp e) CACHE_DURATION); [lia|].
  - intros ip e. rewrite sweepRateLimit_lookup.
    destruct (rateLimit st !! ip) as [e0|]; [|done].
    destruct (Z.gtb_spec (t2 - RateLimitEntry.timestamp e0) RATE_LIMIT_WINDOW);
      [done|]. by intros [= <-].
  - intros k e. rewrite sweepCache_lookup.
    destruct (cache st !! k) as [e0|]; [|done].
    destruct (Z.gtb_spec (t2 - CacheEntry.timestamp e0) CACHE_DURATION); [done|].
    by intros [= <-].
Qed.

(** The typed revision's store leaves both tables swept: no rate-limit
    entry older than 300 seconds and no cache entry older than 30 minutes
    at the clock reading it stores with, the fresh entry among them. *)
Theorem typed_store_leaves_tables_swept (k : string) (d : json) (now : Z)
    (st : Server) :
  let st' := RouteTyped.setCachedData k d now st in
  (forall ip e, rateLimit st' !! ip = Some e ->
     rateLimit st !! ip = Some e
     /\ now - RateLimitEntry.timestamp e <= RATE_LIMIT_WINDOW)
  /\ (forall k' e, cache st' !! k' = Some e ->
        now - CacheEntry.timestamp e <= CACHE_DURATION
        /\ (k' <> k -> cache st !! k' = Some e))
  /\ cache st' !! k = Some (CacheEntry.mk d now).
Proof.
  simpl. repeat split.
  - revert H. rewrite sweepRateLimit_lookup.
    destruct (rateLimit st !! ip) as [e0|]; [|done].
    destruct (_ >? _); [done|]. by intros [= <-].
  - revert H. rewrite sweepRateLimit_lookup.
    destruct (rateLimit st !! ip) as [e0|]; [|done].
    destruct (Z.gtb_spec (now - RateLimitEntry.timestamp e0) RATE_LIMIT_WINDOW);
      [done|]. by intros [= <-].
  - revert H. destruct (decide (k = k')) as [->|Hne].
    + rewrite lookup_insert_eq. intros [= <-]. simpl. unfold CACHE_DURATION. lia.
    + rewrite lookup_insert_ne, sweepCache_lookup by done.
      destruct (cache st !! k') as [e0|]; [|done].
      destruct (Z.gtb_spec (now - CacheEntry.timestamp e0) CACHE_DURATION);
        [done|]. by intros [= <-].
  - intros Hne. revert H. rewrite lookup_insert_ne, sweepCache_lookup by done.
    destruct (cache st !! k') as [e0|]; [|done].
    destruct (_ >? _); [done|]. by intros [= <-].
  - apply lookup_insert_eq.
Qed.

End CacheComposition.

Lemma sweep_keeps_what_lookup_evicts_instance :
  let c : gmap string CacheEntry.t := {[ "68657" := CacheEntry.mk sample_payload 0 ]} in
  (sweepCache 1800000 c !! "68657" = None ->
     getCachedData "68657" 1800000 c = (JNull, delete "68657" c))
  /\ (1800000 - CacheEntry.timestamp (CacheEntry.mk sample_payload 0)
      = CACHE_DURATION ->
      sweepCache 1800000 c !! "68657" = Some (CacheEntry.mk sample_payload 0)
      /\ getCachedData "68657" 1800000 c = (JNull, delete "68657" c)).
Proof.
  intros c.
  apply (sweep_keeps_what_lookup_evicts "68657" 1800000 c). reflexivity.
Defined.

Lemma sweeps_compose_instance :
  let st := mkServer {[ "203.0.113.7" := RateLimitEntry.mk 10 0 ]}
                     {[ "68657" := CacheEntry.mk sample_payload 0 ]} in
  Route.cleanup 400000 (Route.cleanup 200000 st) = Route.cleanup 400000 st
  /\ Route.cleanup 200000 (Route.cleanup 400000 st) = Route.cleanup 400000 st
  /\ (forall ip e, rateLimit (Route.cleanup 400000 st) !! ip = Some e ->
        400000 - RateLimitEntry.timestamp e <= RATE_LIMIT_WINDOW)
  /\ (forall k e, cache (Route.cleanup 400000 st) !! k = Some e ->
        400000 - CacheEntry.timestamp e <= CACHE_DURATION).
Proof.
  intros st. apply (sweeps_compose 200000 400000 st). lia.
Defined.

(** ** What a request leaves behind *)

Section Aftermath.

Variable apiKey : option string.

(** Every admitted request is counted, whatever becomes of it: served
    from the cache, fetched, or failed with a 500, the client's entry
    afterwards is the one the rate check wrote (count 1 in a new window,
    or one more in the running one), and every other client's entry is
    untouched. *)
Theorem admitted_requests_are_counted (r : Request) (st : Server) :
  let ip := Route.client_ip (headers r) in
  let st' := (handle apiKey r st).2 in
  (checkRateLimit ip (t_rate r) (rateLimit st)).1 = true ->
  (opens_window ip (t_rate r) (rateLimit st) ->
     rateLimit st' !! ip = Some (RateLimitEntry.mk 1 (t_rate r)))
  /\ (forall e, rateLimit st !! ip = Some e ->
        t_rate r - RateLimitEntry.timestamp e <= RATE_LIMIT_WINDOW ->
        rateLimit st' !! ip
        = Some (RateLimitEntry.mk (RateLimitEntry.count e + 1)
                                  (RateLimitEntry.timestamp e)))
  /\ (forall ip', ip' <> ip -> rateLimit st' !! ip' = rateLimit st !! ip').
Proof.
  intros ip st' Hok. subst st'. rewrite handle_rateLimit. fold ip.
  split; [|split].
  - intros Ho. rewrite checkRateLimit_opens by done. apply lookup_insert_eq.
  - intros [c ts] He Hin. simpl in *.
    rewrite (checkRateLimit_within _ _ _ _ _ He Hin) in Hok |- *.
    destruct (c <? MAX_REQUESTS); [|done]. apply lookup_insert_eq.
  - intros ip' Hne. by apply checkRateLimit_other.
Qed.


End Aftermath.

Lemma admitted_requests_are_counted_instance :
  let r := sample_request 1000 FetchRejected in
  let st := mkServer {[ "203.0.113.7" := RateLimitEntry.mk 4 0 ]} ∅ in
  let ip := Route.client_ip (headers r) in
  let st' := (handle None r st).2 in
  (opens_window ip (t_rate r) (rateLimit st) ->
     rateLimit st' !! ip = Some (RateLimitEntry.mk 1 (t_rate r)))
  /\ (forall e, rateLimit st !! ip = Some e ->
        t_rate r - RateLimitEntry.timestamp e <= RATE_LIMIT_WINDOW ->
        rateLimit st' !! ip
        = Some (RateLimitEntry.mk (RateLimitEntry.count e + 1)
                                  (RateLimitEntry.timestamp e)))
  /\ (forall ip', ip' <> ip -> rateLimit st' !! ip' = rateLimit st !! ip').
Proof.
  intros r st.
  apply (admitted_requests_are_counted None r st). reflexivity.
Defined.


(** ** The sweeps seen from outside *)

Section Sweeps.

Variable apiKey : option string.

Lemma gone_rate_later now t o : now <= t -> gone_rate now o -> gone_rate t o.
Proof. destruct o as [e|]; simpl; [lia|done]. Qed.

Lemma gone_cache_later now t o : now <= t -> gone_cache now o -> gone_cache t o.
Proof. destruct o as [e|]; simpl; [lia|done]. Qed.

Lemma alike_refl now st : alike now st st.
Proof. split; intros k; by left. Qed.

Lemma alike_later now t st1 st2 : now <= t -> alike now st1 st2 -> alike t st1 st2.
Proof.
  intros Hle [Hr Hc]. split; intros k.
  - destruct (Hr k) as [?|[? ?]]; [by left|right]. eauto using gone_rate_later.
  - destruct (Hc k) as [?|[? ?]]; [by left|right]. eauto using gone_cache_later.
Qed.

Lemma checkRateLimit_alike now t ip m1 m2 :
  alike_rate now m1 m2 -> now <= t ->
  (checkRateLimit ip t m1).1 = (checkRateLimit ip t m2).1
  /\ alike_rate t (checkRateLimit ip t m1).2 (checkRateLimit ip t m2).2.
Proof.
  intros Ha Hle.
  assert (Hother : forall m1' m2',
             (forall k, k <> ip -> m1' !! k = m1 !! k /\ m2' !! k = m2 !! k) ->
             m1' !! ip = m2' !! ip -> alike_rate t m1' m2').
  { intros m1' m2' Hk Hip k. destruct (decide (k = ip)) as [->|Hne]; [by left|].
    destruct (Hk k Hne) as [-> ->].
    destruct (Ha k) as [?|[? ?]]; [by left|right]. eauto using gone_rate_later. }
  assert (Hins : forall (e : RateLimitEntry.t) k,
             k <> ip -> <[ip := e]> m1 !! k = m1 !! k
                        /\ <[ip := e]> m2 !! k = m2 !! k).
  { intros e k Hne. by rewrite !lookup_insert_ne. }
  destruct (Ha ip) as [Heq|[H1 H2]].
  - unfold checkRateLimit. rewrite Heq. destruct (m2 !! ip) as [e|] eqn:He; simpl.
    + destruct (_ >? _); simpl;
        [split; [done|]; apply Hother; [apply Hins|by rewrite !lookup_insert_eq]|].
      destruct (_ <? _); simpl;
        [split; [done|]; apply Hother; [apply Hins|by rewrite !lookup_insert_eq]|].
      split; [done|]. apply Hother; [done|congruence].
    + split; [done|]. apply Hother; [apply Hins|by rewrite !lookup_insert_eq].
  - assert (Hopen : forall m, gone_rate now (m !! ip) ->
               checkRateLimit ip t m = (true, <[ip := RateLimitEntry.mk 1 t]> m)).
    { intros m Hg. apply checkRateLimit_opens. unfold opens_window.
      destruct (m !! ip); simpl in *; [lia|done]. }
    rewrite !Hopen by done. simpl. split; [done|].
    apply Hother; [apply Hins|by rewrite !lookup_insert_eq].
Qed.

Lemma getCachedData_alike now t k c1 c2 :
  alike_cache now c1 c2 -> now <= t ->
  (getCachedData k t c1).1 = (getCachedData k t c2).1
  /\ alike_cache t (getCachedData k t c1).2 (getCachedData k t c2).2.
Proof.
  intros Ha Hle.
  assert (Hother : forall c1' c2',
             (forall k', k' <> k -> c1' !! k' = c1 !! k' /\ c2' !! k' = c2 !! k') ->
             c1' !! k = c2' !! k -> alike_cache t c1' c2').
  { intros c1' c2' Hk Hip k'. destruct (decide (k' = k)) as [->|Hne]; [by left|].
    destruct (Hk k' Hne) as [-> ->].
    destruct (Ha k') as [?|[? ?]]; [by left|right]. eauto using gone_cache_later. }
  assert (Hmiss : forall c, gone_cache now (c !! k) ->
             (getCachedData k t c).1 = JNull
             /\ (getCachedData k t c).2 !! k = None
             /\ forall k', k' <> k -> (getCachedData k t c).2 !! k' = c !! k').
  { intros c Hg. unfold getCachedData. destruct (c !! k) as [e|] eqn:He; simpl in *.
    - destruct (Z.ltb_spec (t - CacheEntry.timestamp e) CACHE_DURATION); [lia|].
      simpl. split; [done|]. split; [apply lookup_delete_eq|].
      intros k' Hne. by rewrite lookup_delete_ne.
    - done. }
  destruct (Ha k) as [Heq|[H1 H2]].
  - unfold getCachedData. rewrite Heq. destruct (c2 !! k) as [e|] eqn:He; simpl.
    + destruct (_ <? _); simpl; (split; [done|]).
      * apply Hother; [done|congruence].
      * apply Hother; [|by rewrite !lookup_delete_eq].
        intros k' Hne. by rewrite !lookup_delete_ne.
    + split; [done|]. apply Hother; [done|congruence].
  - destruct (Hmiss c1 H1) as (Hd1 & Hk1 & Ho1).
    destruct (Hmiss c2 H2) as (Hd2 & Hk2 & Ho2).
    split; [by rewrite Hd1, Hd2|]. apply Hother; [|by rewrite Hk1, Hk2].
    intros k' Hne. by rewrite Ho1, Ho2.
Qed.

Lemma sweepRateLimit_alike now t m1 m2 :
  alike_rate now m1 m2 -> now <= t ->
  alike_rate t (sweepRateLimit t m1) m2.
Proof.
  intros Ha Hle ip. rewrite sweepRateLimit_lookup.
  destruct (Ha ip) as [Heq|[H1 H2]].
  - rewrite Heq. destruct (m2 !! ip) as [e|]; [|by left].
    destruct (Z.gtb_spec (t - RateLimitEntry.timestamp e) RATE_LIMIT_WINDOW);
      [right; simpl; split; [done|lia]|by left].
  - right. split; [|eauto using gone_rate_later].
    destruct (m1 !! ip) as [e|]; [|done].
    destruct (_ >? _); [done|]. eauto using gone_rate_later.
Qed.

Lemma sweepCache_alike now t c1 c2 :
  alike_cache now c1 c2 -> now <= t ->
  alike_cache t (sweepCache t c1) c2.
Proof.
  intros Ha Hle k. rewrite sweepCache_lookup.
  destruct (Ha k) as [Heq|[H1 H2]].
  - rewrite Heq. destruct (c2 !! k) as [e|]; [|by left].
    destruct (Z.gtb_spec (t - CacheEntry.timestamp e) CACHE_DURATION);
      [right; simpl; split; [done|lia]|by left].
  - right. split; [|eauto using gone_cache_later].
    destruct (c1 !! k) as [e|]; [|done].
    destruct (_ >? _); [done|]. eauto using gone_cache_later.
Qed.

Lemma cleanup_alike now t st1 st2 :
  alike now st1 st2 -> now <= t -> alike t (Route.cleanup t st1) st2.
Proof.
  intros [Hr Hc] Hle.
  split; [by apply (sweepRateLimit_alike now)|by apply (sweepCache_alike now)].
Qed.

Lemma GET_enter_alike now ip sid t1 t2 st1 st2 :
  alike now st1 st2 -> now <= t1 -> t1 <= t2 ->
  (GET_enter apiKey ip sid t1 t2 st1).1 = (GET_enter apiKey ip sid t1 t2 st2).1
  /\ alike t2 (GET_enter apiKey ip sid t1 t2 st1).2
              (GET_enter apiKey ip sid t1 t2 st2).2.
Proof.
  intros [Hr Hc] H1 H2. unfold GET_enter.
  destruct (checkRateLimit_alike now t1 ip _ _ Hr H1) as [Hv Hr'].
  destruct (getCachedData_alike now t2 sid _ _ Hc ltac:(lia)) as [Hd Hc'].
  destruct (checkRateLimit ip t1 (rateLimit st1)) as [b1 m1].
  destruct (checkRateLimit ip t1 (rateLimit st2)) as [b2 m2].
  destruct (getCachedData sid t2 (cache st1)) as [d1 c1].
  destruct (getCachedData sid t2 (cache st2)) as [d2 c2].
  simpl in *. subst b2 d2.
  assert (Hr2 : alike_rate t2 m1 m2).
  { intros k. destruct (Hr' k) as [?|[? ?]]; [by left|right].
    eauto using gone_rate_later. }
  destruct b1; simpl.
  - by destruct (truthy d1).
  - split; [done|]. split; [done|]. simpl.
    intros k. destruct (Hc k) as [?|[? ?]]; [by left|right].
    split; apply (gone_cache_later now); (lia || done).
Qed.

Lemma store_alike now t sid d st1 st2 :
  alike now st1 st2 -> now <= t ->
  alike t (Route.setCachedData sid d t st1) (Route.setCachedData sid d t st2)
  /\ alike t (RouteTyped.setCachedData sid d t st1)
             (Route.setCachedData sid d t st2).
Proof.
  intros Ha Hle.
  assert (Hins : forall st st', alike t st st' ->
            alike t (Route.setCachedData sid d t st)
                    (Route.setCachedData sid d t st')).
  { intros st st' [Hr Hc]. split; [done|]. simpl. intros k.
    destruct (decide (k = sid)) as [->|Hne].
    - left. by rewrite !lookup_insert_eq.
    - rewrite !lookup_insert_ne by done. apply Hc. }
  split; [apply Hins; by apply (alike_later now)|].
  apply (Hins (Route.cleanup t st1)). by apply (cleanup_alike now).
Qed.

(** One request, served from tables that are alike, by either revision on
    the one side and the first on the other. *)
Lemma handle_alike now r st1 st2 :
  alike now st1 st2 ->
  now <= t_rate r -> t_rate r <= t_cache r -> t_cache r <= t_store r ->
  ((handle apiKey r st1).1 = (handle apiKey r st2).1
   /\ alike (t_store r) (handle apiKey r st1).2 (handle apiKey r st2).2)
  /\ (RouteTyped.client_ip (headers r) = Route.client_ip (headers r) ->
      (handle_typed apiKey r st1).1 = (handle apiKey r st2).1
      /\ alike (t_store r) (handle_typed apiKey r st1).2 (handle apiKey r st2).2).
Proof.
  intros Ha H1 H2 H3.
  unfold handle, handle_typed, Route.GET, RouteTyped.GET, run_GET.
  split; [|intros ->].
  all: destruct (GET_enter_alike now (Route.client_ip (headers r)) (sensorId r)
                   (t_rate r) (t_cache r) st1 st2 Ha H1 H2) as [He Ha'].
  all: destruct (GET_enter _ _ _ _ _ st1) as [e1 s1].
  all: destruct (GET_enter _ _ _ _ _ st2) as [e2 s2]; simpl in *; subst e2.
  all: destruct e1 as [resp|req]; simpl;
         [split; [done|]; by apply (alike_later (t_cache r))|].
  all: unfold Route.GET_resume, RouteTyped.GET_resume.
  all: destruct (fetched_payload (upstream r req)) as [d|]; simpl;
         [|split; [done|]; by apply (alike_later (t_cache r))].
  all: split; [done|];
         by apply (store_alike (t_cache r) (t_store r) (sensorId r) d s1 s2).
Qed.

Lemma answers_alike events : forall now st1 st2,
  alike now st1 st2 -> in_clock_order now events ->
  answers apiKey events st1
  = answers apiKey (map Arrives (requests_of events)) st2.
Proof.
  induction events as [|[r|t] events IH]; intros now st1 st2 Ha Hclock; [done|..].
  - destruct Hclock as (H1 & H2 & H3 & Hclock). simpl.
    destruct (handle_alike now r st1 st2 Ha H1 H2 H3) as [[Hresp Ha'] _].
    destruct (handle apiKey r st1) as [[resp1 calls1] s1].
    destruct (handle apiKey r st2) as [[resp2 calls2] s2]. simpl in *.
    injection Hresp as <- <-. f_equal. by apply (IH (t_store r)).
  - destruct Hclock as [H1 Hclock]. simpl.
    apply (IH t); [|done]. by apply (cleanup_alike now).
Qed.

Lemma answers_typed_alike reqs : forall now st1 st2,
  alike now st1 st2 -> in_clock_order now (map Arrives reqs) ->
  Forall (fun r => RouteTyped.client_ip (headers r) = Route.client_ip (headers r))
         reqs ->
  answers_typed apiKey reqs st1 = answers apiKey (map Arrives reqs) st2.
Proof.
  induction reqs as [|r reqs IH]; intros now st1 st2 Ha Hclock Hid; [done|].
  destruct Hclock as (H1 & H2 & H3 & Hclock).
  apply Forall_cons in Hid as [Hr Hid]. simpl.
  destruct (handle_alike now r st1 st2 Ha H1 H2 H3) as [_ Ht].
  destruct (Ht Hr) as [Hresp Ha'].
  destruct (handle_typed apiKey r st1) as [[resp1 calls1] s1].
  destruct (handle apiKey r st2) as [[resp2 calls2] s2]. simpl in *.
  injection Hresp as <- <-. f_equal. by apply (IH (t_store r)).
Qed.

(** The timer is memory management only: with a clock that does not run
    backwards, the responses and the upstream calls of the requests are
    the same whenever and however often the sweep runs between them. *)
Theorem timer_changes_no_answer (now : Z) (events : list Event) (st : Server) :
  in_clock_order now events ->
  answers apiKey events st
  = answers apiKey (map Arrives (requests_of events)) st.
Proof. apply answers_alike, alike_refl. Qed.

(** The two revisions answer alike: with a clock that does not run
    backwards, requests that carry a non-empty [x-forwarded-for] header or
    no [x-real-ip] header get the same responses, with the same upstream
    calls, from the typed revision as from the first one. *)
Theorem revisions_answer_alike (now : Z) (reqs : list Request) (st : Server) :
  in_clock_order now (map Arrives reqs) ->
  Forall (fun r => RouteTyped.client_ip (headers r) = Route.client_ip (headers r))
         reqs ->
  answers_typed apiKey reqs st = answers apiKey (map Arrives reqs) st.
Proof. apply answers_typed_alike, alike_refl. Qed.

End Sweeps.

Lemma timer_changes_no_answer_instance :
  answers None sample_events initial
  = answers None (map Arrives (requests_of sample_events)) initial.
Proof.
  apply (timer_changes_no_answer None 0 sample_events initial).
  vm_compute. repeat split; discriminate.
Defined.

Lemma revisions_answer_alike_instance :
  answers_typed None (requests_of sample_events) initial
  = answers None (map Arrives (requests_of sample_events)) initial.
Proof.
  apply (revisions_answer_alike None 0 (requests_of sample_events) initial).
  - vm_compute. repeat split; discriminate.
  - repeat constructor.
Defined.

(** * Further properties of the AQI conversion *)

(** ** Signed values *)

Module Binary64SignedFacts.
Import Binary64 Binary64Facts Binary64Signed.

Lemma approx_ext d d' r : (d == d')%Q -> approx d r -> approx d' r.
Proof.
  intros Hd [[H0 Hz]|[[Hp Hr]|[Hn (r' & Hr' & Hr)]]].
  - left. split; [by rewrite <- Hd|done].
  - right; left. split; [by rewrite <- Hd|]. by apply (rounds_to_ext d).
  - right; right. split; [by rewrite <- Hd|]. exists r'. split; [done|].
    apply (rounds_to_ext (- d)); [by rewrite Hd|done].
Qed.

Lemma binary_round_aux_neg M E l :
  binary_round_aux prec emax true M E l
  = SFopp (binary_round_aux prec emax false M E l).
Proof.
  unfold binary_round_aux.
  destruct (shr_fexp prec emax M E l) as [mrs' e'].
  destruct (shr_fexp prec emax _ e' loc_Exact) as [mrs'' e''].
  destruct (shr_m mrs'') as [|p|p]; simpl; [done| |done].
  by destruct (_ <=? _).
Qed.

Lemma binary_normalize_approx (S e : Z) :
  approx (F2Q S e) (binary_normalize prec emax S e false).
Proof.
  destruct S as [|p|p].
  - left. split; [unfold F2Q; change (inject_Z 0) with 0%Q; ring|eauto].
  - right; left. split.
    + unfold F2Q. apply Qmult_lt_0_compat; [reflexivity|apply pow2_pos].
    + by apply binary_normalize_bounds.
  - right; right.
    assert (Hneg : (F2Q (Zneg p) e == - F2Q (Zpos p) e)%Q).
    { unfold F2Q. change (Zneg p) with (- Zpos p). rewrite inject_Z_opp. ring. }
    split.
    + rewrite Hneg.
      assert (0 < F2Q (Zpos p) e)%Q
        by (unfold F2Q; apply Qmult_lt_0_compat; [reflexivity|apply pow2_pos]).
      lra.
    + exists (binary_round prec emax false p e). split.
      * simpl. unfold binary_round. destruct (shl_align p e _) as [mz ez].
        apply binary_round_aux_neg.
      * eapply rounds_to_ext; [|apply binary_round_bounds]. rewrite Hneg. ring.
Qed.

Lemma F2Q_cond_Zopp s m e : (F2Q (cond_Zopp s (Zpos m)) e == sval s m e)%Q.
Proof.
  destruct s; simpl; [|reflexivity].
  unfold F2Q. change (Zneg m) with (- Zpos m). rewrite inject_Z_opp. ring.
Qed.

Lemma sval_aligned s1 m1 e1 s2 m2 e2 :
  let ez := Z.min e1 e2 in
  (F2Q (cond_Zopp s1 (Zpos (shl_align m1 e1 ez).1)) ez == sval s1 m1 e1)%Q
  /\ (F2Q (cond_Zopp s2 (Zpos (shl_align m2 e2 ez).1)) ez == sval s2 m2 e2)%Q.
Proof.
  intros ez. destruct (aligned m1 e1 m2 e2) as [H1 H2]. fold ez in H1, H2.
  rewrite !F2Q_cond_Zopp. unfold sval.
  destruct s1, s2; rewrite H1, H2; done.
Qed.

Lemma F2Q_add a b e : (F2Q (a + b) e == F2Q a e + F2Q b e)%Q.
Proof. unfold F2Q. rewrite inject_Z_plus. ring. Qed.

Lemma F2Q_sub a b e : (F2Q (a - b) e == F2Q a e - F2Q b e)%Q.
Proof. unfold F2Q, Z.sub. rewrite inject_Z_plus, inject_Z_opp. ring. Qed.

Lemma SF64add_approx s1 m1 e1 s2 m2 e2 :
  approx (sval s1 m1 e1 + sval s2 m2 e2)
         (SF64add (S754_finite s1 m1 e1) (S754_finite s2 m2 e2)).
Proof.
  unfold SF64add, SFadd.
  destruct (sval_aligned s1 m1 e1 s2 m2 e2) as [H1 H2].
  eapply approx_ext; [|apply binary_normalize_approx].
  by rewrite F2Q_add, H1, H2.
Qed.

Lemma SF64sub_approx s1 m1 e1 s2 m2 e2 :
  approx (sval s1 m1 e1 - sval s2 m2 e2)
         (SF64sub (S754_finite s1 m1 e1) (S754_finite s2 m2 e2)).
Proof.
  unfold SF64sub, SFsub.
  destruct (sval_aligned s1 m1 e1 s2 m2 e2) as [H1 H2].
  eapply approx_ext; [|apply binary_normalize_approx].
  by rewrite F2Q_sub, H1, H2.
Qed.

Lemma SF64mul_approx s1 m1 e1 s2 m2 e2 :
  approx (sval s1 m1 e1 * sval s2 m2 e2)
         (SF64mul (S754_finite s1 m1 e1) (S754_finite s2 m2 e2)).
Proof.
  unfold SF64mul, SFmul.
  assert (Hpos : forall m e, (0 < F2Q (Zpos m) e)%Q).
  { intros m e. unfold F2Q. apply Qmult_lt_0_compat; [reflexivity|apply pow2_pos]. }
  pose proof (Hpos m1 e1). pose proof (Hpos m2 e2).
  pose proof (SF64mul_bounds m1 e1 m2 e2) as Hr.
  unfold SF64mul, SFmul in Hr. simpl xorb in Hr.
  destruct s1, s2; simpl xorb; unfold sval.
  - right; left. split; [nra|]. eapply rounds_to_ext; [|apply Hr]. ring.
  - right; right. split; [nra|]. eexists. split; [apply binary_round_aux_neg|].
    eapply rounds_to_ext; [|apply Hr]. ring.
  - right; right. split; [nra|]. eexists. split; [apply binary_round_aux_neg|].
    eapply rounds_to_ext; [|apply Hr]. ring.
  - right; left. split; [nra|done].
Qed.

End Binary64SignedFacts.

(** ** The bands *)

Module AQIBands.
Import AQI Binary64 Binary64Facts AQIFacts Binary64Signed Binary64SignedFacts.
#[local] Set Warnings "-inexact-float".

Lemma approx_within (d : Q) (r : spec_float) (lo hi M : Q) :
  approx d r ->
  (- M <= d)%Q -> (d <= M)%Q -> (M <= 100000)%Q ->
  (lo <= d - (M * eps + tiny))%Q -> (d + (M * eps + tiny) <= hi)%Q ->
  within lo hi r.
Proof.
  intros Ha HdM HMd HM Hlo Hhi.
  pose proof eps_small as [He0 He1]. pose proof tiny_small as [Ht0 Ht1].
  assert (Hbig : (1000000 < pow2 972)%Q) by closedQ.
  assert (Hpack : forall x m e,
            (0 < x)%Q -> (x <= M)%Q -> (0 <= m)%Z ->
            (x * (1 - eps) - tiny <= F2Q m e)%Q ->
            (F2Q m e <= x * (1 + eps) + tiny)%Q ->
            ((exists s, pack m e = S754_zero s) /\ (x - (M * eps + tiny) <= 0)%Q)
            \/ exists p, pack m e = S754_finite false p e
                 /\ (x - (M * eps + tiny) <= F2Q (Zpos p) e)%Q
                 /\ (F2Q (Zpos p) e <= x + (M * eps + tiny))%Q).
  { intros x m e Hx HxM Hm Hl Hh. unfold pack.
    destruct m as [|p|p]; [left|right; exists p|lia].
    { split; [eauto|]. unfold F2Q in Hl. change (inject_Z 0) with 0%Q in Hl. nra. }
    destruct (Z.leb_spec e (emax - prec)) as [Hle|Hgt].
    - split; [done|]. split; nra.
    - exfalso. pose proof (F2Q_ge_pow2 p e).
      pose proof (pow2_le 972 e ltac:(unfold emax, prec in Hgt; lia)). nra. }
  destruct Ha as [[H0 [s ->]]|[[Hp (m & e & -> & Hm & Hl & Hh)]
                              |[Hn (r' & -> & m & e & -> & Hm & Hl & Hh)]]].
  - exists 0%Q. split; [done|]. split; nra.
  - destruct (Hpack d m e Hp HMd Hm Hl Hh) as [[[s ->] H0]|(p & -> & Hl' & Hh')].
    + exists 0%Q. split; [done|]. split; nra.
    + eexists. split; [reflexivity|]. split; lra.
  - destruct (Hpack (- d)%Q m e ltac:(lra) ltac:(lra) Hm Hl Hh)
      as [[[s ->] H0]|(p & -> & Hl' & Hh')].
    + exists 0%Q. split; [done|]. split; nra.
    + eexists. split; [reflexivity|]. simpl. split; lra.
Qed.

Local Open Scope float_scope.

(** Interval versions of the three operations of the band formulas, each
    with a positive finite constant [k]. *)
Section Operations.

Variables (k : float) (mk : positive) (ek : Z).
Hypothesis Hk : Prim2SF k = S754_finite false mk ek.

Lemma vk_pos : (0 < F2Q (Zpos mk) ek)%Q.
Proof. unfold F2Q. apply Qmult_lt_0_compat; [reflexivity|apply pow2_pos]. Qed.

Lemma sub_within (x : float) (lo hi M lo' hi' : Q) :
  within lo hi (Prim2SF x) ->
  (- M <= lo - F2Q (Zpos mk) ek)%Q -> (hi - F2Q (Zpos mk) ek <= M)%Q ->
  (M <= 100000)%Q ->
  (lo' <= lo - F2Q (Zpos mk) ek - (M * eps + tiny))%Q ->
  (hi - F2Q (Zpos mk) ek + (M * eps + tiny) <= hi')%Q ->
  within lo' hi' (Prim2SF (x - k)).
Proof.
  intros (v & Hv & Hl & Hh) HM1 HM2 HM Hlo Hhi. rewrite sub_spec, Hk.
  pose proof eps_small as [He0 He1]. pose proof tiny_small as [Ht0 Ht1].
  destruct (Prim2SF x) as [s|s| |s m e]; try done; injection Hv as <-.
  - exists (- F2Q (Zpos mk) ek)%Q. split; [done|]. split; nra.
  - eapply (approx_within (sval s m e - F2Q (Zpos mk) ek) _ lo' hi' M);
      [apply (SF64sub_approx s m e false)|..];
      unfold sval in *; try done; destruct s; lra.
Qed.

Lemma mul_within (x : float) (lo hi M lo' hi' : Q) :
  within lo hi (Prim2SF x) ->
  (- M <= F2Q (Zpos mk) ek * lo)%Q -> (F2Q (Zpos mk) ek * hi <= M)%Q ->
  (M <= 100000)%Q ->
  (lo' <= F2Q (Zpos mk) ek * lo - (M * eps + tiny))%Q ->
  (F2Q (Zpos mk) ek * hi + (M * eps + tiny) <= hi')%Q ->
  within lo' hi' (Prim2SF (k * x)).
Proof.
  intros (v & Hv & Hl & Hh) HM1 HM2 HM Hlo Hhi. rewrite mul_spec, Hk.
  pose proof eps_small as [He0 He1]. pose proof tiny_small as [Ht0 Ht1].
  pose proof vk_pos as Hvk.
  destruct (Prim2SF x) as [s|s| |s m e]; try done; injection Hv as <-.
  - assert (F2Q (Zpos mk) ek * lo <= 0)%Q by nra.
    assert (0 <= F2Q (Zpos mk) ek * hi)%Q by nra.
    assert (0 <= M * eps)%Q by nra.
    exists 0%Q. split; [done|]. split; lra.
  - assert (F2Q (Zpos mk) ek * lo <= F2Q (Zpos mk) ek * sval s m e)%Q
      by (unfold sval; destruct s; nra).
    assert (F2Q (Zpos mk) ek * sval s m e <= F2Q (Zpos mk) ek * hi)%Q
      by (unfold sval; destruct s; nra).
    eapply (approx_within (F2Q (Zpos mk) ek * sval s m e) _ lo' hi' M);
      [apply (SF64mul_approx false mk ek s m e)|..]; try done; lra.
Qed.

Lemma add_within (x : float) (lo hi M lo' hi' : Q) :
  within lo hi (Prim2SF x) ->
  (- M <= lo + F2Q (Zpos mk) ek)%Q -> (hi + F2Q (Zpos mk) ek <= M)%Q ->
  (M <= 100000)%Q ->
  (lo' <= lo + F2Q (Zpos mk) ek - (M * eps + tiny))%Q ->
  (hi + F2Q (Zpos mk) ek + (M * eps + tiny) <= hi')%Q ->
  within lo' hi' (Prim2SF (x + k)).
Proof.
  intros (v & Hv & Hl & Hh) HM1 HM2 HM Hlo Hhi. rewrite add_spec, Hk.
  pose proof eps_small as [He0 He1]. pose proof tiny_small as [Ht0 Ht1].
  destruct (Prim2SF x) as [s|s| |s m e]; try done; injection Hv as <-.
  - exists (F2Q (Zpos mk) ek). split; [done|]. split; nra.
  - eapply (approx_within (sval s m e + F2Q (Zpos mk) ek) _ lo' hi' M);
      [apply (SF64add_approx s m e false)|..];
      unfold sval in *; try done; destruct s; lra.
Qed.

(** A number above [k] fails the guard [<= k]. *)
Lemma ltb_leb_false (c : float) : (k <? c) = true -> (c <=? k) = false.
Proof.
  rewrite ltb_spec, leb_spec, Hk.
  pose proof (Prim2SF_valid c) as Hv. pose proof (Prim2SF_valid k) as Hvk.
  rewrite Hk in Hvk.
  destruct (Prim2SF c) as [s|s| |s m e]; try done.
  - by destruct s.
  - destruct s; [done|]. intros Hlt%SFltb_finite; [|done..].
    apply not_true_is_false. intros Hle%SFleb_finite; [lra|done..].
Qed.

(** What the two guards of a band say about the concentration. *)
Lemma between (c k' : float) (mk' : positive) (ek' : Z) :
  Prim2SF k' = S754_finite false mk' ek' ->
  (k <? c) = true -> (c <=? k') = true ->
  within (F2Q (Zpos mk) ek) (F2Q (Zpos mk') ek') (Prim2SF c).
Proof.
  intros Hk'. rewrite ltb_spec, leb_spec, Hk, Hk'.
  pose proof (Prim2SF_valid c) as Hv. pose proof (Prim2SF_valid k) as Hvk.
  pose proof (Prim2SF_valid k') as Hvk'. rewrite Hk in Hvk. rewrite Hk' in Hvk'.
  destruct (Prim2SF c) as [s|s| |s m e]; try done.
  - by destruct s.
  - destruct s; [done|]. intros Hlt%SFltb_finite Hle%SFleb_finite; [|done..].
    eexists. split; [reflexivity|]. split; lra.
Qed.

End Operations.

(** [Math.round] of a number between two integers, up to less than a
    half on either side, is an integer between them. *)
Lemma Math_round_within (x : float) (lo hi : Q) (nlo nhi : Z) :
  within lo hi (Prim2SF x) ->
  (1 <= nlo)%Z -> (nhi <= 1000000)%Z ->
  (inject_Z nlo - (1 # 2) <= lo)%Q -> (hi < inject_Z nhi + (1 # 2))%Q ->
  exists n, (nlo <= n <= nhi)%Z /\ Math_round x = of_Z n.
Proof.
  intros (v & Hv & Hl & Hh) Hnlo Hnhi Hlo Hhi.
  assert (H1 : (1 <= inject_Z nlo)%Q).
  { change 1%Q with (inject_Z 1). by rewrite <- Zle_Qle. }
  assert (H2 : (inject_Z nhi <= 1000000)%Q).
  { change 1000000%Q with (inject_Z 1000000). by rewrite <- Zle_Qle. }
  pose proof (Prim2SF_valid x) as Hval. unfold Math_round.
  destruct (Prim2SF x) as [s|s| |s p e]; try done; injection Hv as <-.
  { lra. }
  assert (Hpos : (0 < F2Q (Zpos p) e)%Q).
  { unfold F2Q. apply Qmult_lt_0_compat; [reflexivity|apply pow2_pos]. }
  destruct s; [lra|].
  apply valid_finite in Hval as (He & Hp & Hnorm).
  destruct (Z.leb_spec 0 e) as [He0|He0].
  - exfalso. pose proof (F2Q_le _ _ e (Hnorm ltac:(lia))) as H52.
    rewrite F2Q_pow2 in H52 by lia.
    pose proof (pow2_le 52 (e + 52) ltac:(lia)).
    assert (1000001 < pow2 52)%Q by closedQ. lra.
  - cbv zeta. simpl cond_Zopp.
    pose proof (round_half_up_bounds p e He0) as [Hle Hlt]. cbv zeta in Hle, Hlt.
    set (n := ((Zpos p + 2 ^ (- e - 1)) / 2 ^ (- e))%Z) in *.
    assert (Hn1 : (nlo <= n)%Z).
    { assert (inject_Z nlo < inject_Z (n + 1))%Q.
      { rewrite inject_Z_plus. change (inject_Z 1) with 1%Q. lra. }
      rewrite <- Zlt_Qlt in H. lia. }
    assert (Hn2 : (n <= nhi)%Z).
    { assert (inject_Z n < inject_Z (nhi + 1))%Q.
      { rewrite inject_Z_plus. change (inject_Z 1) with 1%Q. lra. }
      rewrite <- Zlt_Qlt in H. lia. }
    exists n. split; [done|]. by destruct (Z.eqb_spec n 0); [lia|].
Qed.

(** The category of an integral index, by the integer thresholds. *)
Lemma category_of_index (n : Z) :
  (0 < n <= 255)%Z ->
  getAQICategory (of_Z n)
  = if (n <=? 50)%Z then mkCategory "Good" "bg-green-500"
    else if (n <=? 100)%Z then mkCategory "Moderate" "bg-yellow-500"
    else if (n <=? 150)%Z then
      mkCategory "Unhealthy for Sensitive Groups" "bg-orange-500"
    else if (n <=? 200)%Z then mkCategory "Unhealthy" "bg-red-500"
    else mkCategory "Very Unhealthy" "bg-purple-500".
Proof.
  intros Hn. destruct n as [|p|p]; [lia| |lia].
  do 8 (try destruct p as [p|p|]); try lia; vm_compute; reflexivity.
Qed.

(** The second band: above 12.0 and up to 35.4, the gap up to 12.1
    included, the index is an integer from 51 to 100, shown as Moderate. *)
Theorem band_moderate (c : float) :
  (12.0 <? c) = true -> (c <=? 35.4) = true ->
  exists n, (51 <= n <= 100)%Z /\ calculateAQI c = of_Z n
    /\ getAQICategory (calculateAQI c) = mkCategory "Moderate" "bg-yellow-500".
Proof.
  intros Hlo Hhi.
  assert (Hn : exists n, (51 <= n <= 100)%Z /\ calculateAQI c = of_Z n).
  { unfold calculateAQI.
    rewrite (ltb_leb_false 12.0 6755399441055744 (-49) eq_refl c Hlo), Hhi.
    pose proof (between 12.0 6755399441055744 (-49) eq_refl
                  c 35.4 4982107087778611 (-47) eq_refl Hlo Hhi) as Hc.
    eapply (Math_round_within _ (5078 # 100) (10001 # 100));
      [|lia|lia|closedQ|closedQ].
    eapply (add_within 51 7177611906121728 (-47) eq_refl _
              (- (211 # 1000)) (49001 # 1000) 101); [|closedQ..].
    eapply (mul_within ((100 - 51) / (35.4 - 12.1)) 4735544672556960 (-51)
              eq_refl _
              (- (1001 # 10000)) (233001 # 10000) 50); [|closedQ..].
    eapply (sub_within 12.1 6811694436397875 (-49) eq_refl _ _ _ 24);
      [exact Hc|closedQ..]. }
  destruct Hn as (n & Hn & Heq). exists n. split; [done|]. split; [done|].
  rewrite Heq, category_of_index by lia.
  destruct (Z.leb_spec n 50); [lia|]. by destruct (Z.leb_spec n 100); [|lia].
Qed.

(** The third band: above 35.4 and up to 55.4, the index is an integer
    from 101 to 150, shown as Unhealthy for Sensitive Groups. *)
Theorem band_sensitive (c : float) :
  (35.4 <? c) = true -> (c <=? 55.4) = true ->
  exists n, (101 <= n <= 150)%Z /\ calculateAQI c = of_Z n
    /\ getAQICategory (calculateAQI c)
       = mkCategory "Unhealthy for Sensitive Groups" "bg-orange-500".
Proof.
  intros Hlo Hhi.
  assert (Hn : exists n, (101 <= n <= 150)%Z /\ calculateAQI c = of_Z n).
  { unfold calculateAQI.
    pose proof (above c 35.4 4982107087778611 (-47) eq_refl (or_introl Hlo))
      as Habove.
    rewrite (leb_false c 12.0 _ 6755399441055744 (-49) eq_refl Habove)
      by closedQ.
    rewrite (ltb_leb_false 35.4 4982107087778611 (-47) eq_refl c Hlo), Hhi.
    pose proof (between 35.4 4982107087778611 (-47) eq_refl
                  c 55.4 7796856854885171 (-47) eq_refl Hlo Hhi) as Hc.
    eapply (Math_round_within _ (10075 # 100) (15001 # 100));
      [|lia|lia|closedQ|closedQ].
    eapply (add_within 101 7107243161944064 (-46) eq_refl _
              (- (247 # 1000)) (49001 # 1000) 152); [|closedQ..].
    eapply (mul_within ((150 - 101) / (55.4 - 35.5)) 5544632707064179 (-51)
              eq_refl _ (- (1001 # 10000)) (199001 # 10000) 50); [|closedQ..].
    eapply (sub_within 35.5 4996180836614144 (-47) eq_refl _ _ _ 20);
      [exact Hc|closedQ..]. }
  destruct Hn as (n & Hn & Heq). exists n. split; [done|]. split; [done|].
  rewrite Heq, category_of_index by lia.
  destruct (Z.leb_spec n 50); [lia|]. destruct (Z.leb_spec n 100); [lia|].
  by destruct (Z.leb_spec n 150); [|lia].
Qed.

(** The last band up to its nominal end: above 55.4 and up to 150.4 the
    index is an integer from 151 to 200, shown as Unhealthy. *)
Theorem band_unhealthy (c : float) :
  (55.4 <? c) = true -> (c <=? 150.4) = true ->
  exists n, (151 <= n <= 200)%Z /\ calculateAQI c = of_Z n
    /\ getAQICategory (calculateAQI c) = mkCategory "Unhealthy" "bg-red-500".
Proof.
  intros Hlo Hhi.
  assert (Hn : exists n, (151 <= n <= 200)%Z /\ calculateAQI c = of_Z n).
  { unfold calculateAQI.
    pose proof (above c 55.4 7796856854885171 (-47) eq_refl (or_introl Hlo))
      as Habove.
    rewrite (leb_false c 12.0 _ 6755399441055744 (-49) eq_refl Habove)
      by closedQ.
    rewrite (leb_false c 35.4 _ 4982107087778611 (-47) eq_refl Habove)
      by closedQ.
    rewrite (ltb_leb_false 55.4 7796856854885171 (-47) eq_refl c Hlo).
    pose proof (between 55.4 7796856854885171 (-47) eq_refl
                  c 150.4 5291729562160333 (-45) eq_refl Hlo Hhi) as Hc.
    eapply (Math_round_within _ (15094 # 100) (20001 # 100));
      [|lia|lia|closedQ|closedQ].
    eapply (add_within 151 5312840185413632 (-45) eq_refl _
              (- (52 # 1000)) (49001 # 1000) 202); [|closedQ..].
    eapply (mul_within ((200 - 151) / (150.4 - 55.5)) 4650714051446877 (-53)
              eq_refl _ (- (1001 # 10000)) (949001 # 10000) 50); [|closedQ..].
    eapply (sub_within 55.5 7810930603720704 (-47) eq_refl _ _ _ 95);
      [exact Hc|closedQ..]. }
  destruct Hn as (n & Hn & Heq). exists n. split; [done|]. split; [done|].
  rewrite Heq, category_of_index by lia.
  destruct (Z.leb_spec n 50); [lia|]. destruct (Z.leb_spec n 100); [lia|].
  destruct (Z.leb_spec n 150); [lia|]. by destruct (Z.leb_spec n 200); [|lia].
Qed.

(** An index above 200 is shown as Very Unhealthy. *)
Lemma category_above_200 (x : float) :
  (200 <? x) = true
  -> getAQICategory x = mkCategory "Very Unhealthy" "bg-purple-500".
Proof.
  intros Hx. unfold getAQICategory.
  pose proof (above x 200 7036874417766400 (-45) eq_refl (or_introl Hx)) as Ha.
  rewrite (leb_false x 50 _ 7036874417766400 (-47) eq_refl Ha) by closedQ.
  rewrite (leb_false x 100 _ 7036874417766400 (-46) eq_refl Ha) by closedQ.
  rewrite (leb_false x 150 _ 5277655813324800 (-45) eq_refl Ha) by closedQ.
  by rewrite (ltb_leb_false 200 7036874417766400 (-45) eq_refl x Hx).
Qed.

(** From 152 on, infinity included, the reading is shown as Very
    Unhealthy. *)
Theorem band_very_unhealthy (c : float) :
  (152 <=? c) = true ->
  getAQICategory (calculateAQI c)
  = mkCategory "Very Unhealthy" "bg-purple-500".
Proof.
  intros H152. apply category_above_200.
  pose proof (above c 152 5348024557502464 (-45) eq_refl (or_intror H152)) as Hc.
  unfold calculateAQI.
  rewrite (leb_false c 12.0 _ 6755399441055744 (-49) eq_refl Hc) by closedQ.
  rewrite (leb_false c 35.4 _ 4982107087778611 (-47) eq_refl Hc) by closedQ.
  rewrite (leb_false c 55.4 _ 7796856854885171 (-47) eq_refl Hc) by closedQ.
  apply Math_round_gt_200.
  pose proof eps_small. pose proof tiny_small.
  assert (H152q : (F2Q 5348024557502464 (-45) == 152)%Q) by closedQ.
  assert (H555 : (F2Q 7810930603720704 (-47) == 111 # 2)%Q) by closedQ.
  assert (HK : (5163 # 10000 <= F2Q 4650714051446877 (-53))%Q) by closedQ.
  assert (H151 : (F2Q 5312840185413632 (-45) == 151)%Q) by closedQ.
  eapply (add_at_least _ 151 5312840185413632 (-45) (497 # 10));
    [reflexivity| |reflexivity|nra].
  eapply (mul_at_least _ _ 4650714051446877 (-53) (964 # 10));
    [reflexivity| |reflexivity|reflexivity|nra].
  eapply (sub_at_least _ 55.5 7810930603720704 (-47)
            (F2Q 5348024557502464 (-45)));
    [reflexivity|done|lra|reflexivity|nra].
Qed.

(** *** Negative readings *)







(** A concentration in the gap between 12.0 and 12.1. *)
Lemma band_moderate_instance :
  exists n, (51 <= n <= 100)%Z /\ calculateAQI 12.05 = of_Z n
    /\ getAQICategory (calculateAQI 12.05)
       = mkCategory "Moderate" "bg-yellow-500".
Proof. apply (band_moderate 12.05); reflexivity. Defined.

Lemma band_sensitive_instance :
  exists n, (101 <= n <= 150)%Z /\ calculateAQI 40 = of_Z n
    /\ getAQICategory (calculateAQI 40)
       = mkCategory "Unhealthy for Sensitive Groups" "bg-orange-500".
Proof. apply (band_sensitive 40); reflexivity. Defined.

Lemma band_unhealthy_instance :
  exists n, (151 <= n <= 200)%Z /\ calculateAQI 150.4 = of_Z n
    /\ getAQICategory (calculateAQI 150.4) = mkCategory "Unhealthy" "bg-red-500".
Proof. apply (band_unhealthy 150.4); reflexivity. Defined.

Lemma band_very_unhealthy_instance :
  getAQICategory (calculateAQI 152)
  = mkCategory "Very Unhealthy" "bg-purple-500".
Proof. apply (band_very_unhealthy 152). reflexivity. Defined.


End AQIBands.
